(** * kubensage/relay: the fan-out broadcaster and its two streaming loops

    A shallow embedding of [pkg/grpc/broadcaster.go] and [pkg/grpc/server.go].

    - Go channels are references: the registry maps a subscriber id to a
      channel, and the subscription loop that created the channel keeps the
      same reference.  Channels therefore live in a store ([heap]) and the
      registry holds addresses ([chanref]).
    - [for id, ch := range b.subscribers] visits every entry once, in an order
      Go leaves unspecified.  [Broadcast] takes the visiting order as an
      argument; the properties are proved for every order that is a
      permutation of the registry's entries.
    - The goroutines interleave.  Each loop is embedded as a function for one
      iteration, and [sys_step] composes the iterations of all loops over the
      shared state. *)

From stdpp Require Import gmap strings list fin_maps.

(** ** Data *)

(** Modelled from the spec: the generated protobuf type [gen.Metrics] (package
    [proto/gen]) is not among the sources.  The spec describes a sample as "a
    host identifier string, and an ordered collection of per-workload
    measurement records"; the server reads exactly these two through
    [GetNodeMetrics().GetHostname()] and [len(GetPodMetrics())].  A measurement
    record is kept as an opaque string. *)
Record Metrics := mkMetrics {
  Hostname : string;
  PodMetrics : list string
}.

#[global] Instance Metrics_eq_dec : EqDecision Metrics.
Proof. solve_decision. Defined.

(** Go's [error] values met by the server: the sentinel [io.EOF] and any other
    (transport) error. *)
Inductive error :=
| io_EOF
| transport_error (reason : string).

#[global] Instance error_eq_dec : EqDecision error.
Proof. solve_decision. Defined.

(** An address in the channel store. *)
Abbreviation chanref := nat (only parsing).

(** A buffered channel [make(chan *gen.Metrics, cap)]: its capacity and the
    elements waiting in it, oldest first.  No channel is ever closed in this
    repository, and the only [make] has capacity 100.  A receiver parked on a
    buffered channel takes a sent element at once, which is the same as an
    enqueue followed by its dequeue. *)
Record chan := mkChan {
  cap : nat;
  buf : list Metrics
}.

#[global] Instance chan_eq_dec : EqDecision chan.
Proof. solve_decision. Defined.

(** What the code hands to zap. *)
Inductive Level := DebugLevel | InfoLevel | WarnLevel | ErrorLevel.

Inductive Field :=
| zap_String (key val : string)
| zap_Int (key : string) (val : nat)
| zap_Error (err : error).

Record Entry := mkEntry {
  level : Level;
  message : string;
  fields : list Field
}.

#[global] Instance Level_eq_dec : EqDecision Level.
Proof. solve_decision. Defined.
#[global] Instance Field_eq_dec : EqDecision Field.
Proof. solve_decision. Defined.
#[global] Instance Entry_eq_dec : EqDecision Entry.
Proof. solve_decision. Defined.

(** A [*zap.Logger]; the field that holds it may be nil. *)
Inductive zap_Logger := Zap.

(** Ghost record of the calls made on the Broadcaster, in call order. *)
Inductive Call :=
| CallRegister (id : string) (ch : chanref)
| CallUnregister (id : string)
| CallBroadcast (msg : Metrics).

#[global] Instance Call_eq_dec : EqDecision Call.
Proof. solve_decision. Defined.

(** The visiting order of one [range] over the registry. *)
Abbreviation Order := (list (string * nat)) (only parsing).

(** The shared state: the [Broadcaster] struct ([subscribers], [logger]; the
    mutex has no sequential content), the channel store, the entries written
    to the logger, and the ghost call record.  [MetricsServer] adds nothing but
    its own logger, which it calls unguarded. *)
Record State := mkState {
  heap : gmap nat chan;
  subscribers : gmap string nat;
  logger : option zap_Logger;
  log : list Entry;
  calls : list Call
}.

Definition set_heap (h : gmap nat chan) (st : State) : State :=
  mkState h (subscribers st) (logger st) (log st) (calls st).

Definition set_subscribers (s : gmap string nat) (st : State) : State :=
  mkState (heap st) s (logger st) (log st) (calls st).

Definition write_log (e : Entry) (st : State) : State :=
  mkState (heap st) (subscribers st) (logger st) (log st ++ [e]) (calls st).

Definition record_call (c : Call) (st : State) : State :=
  mkState (heap st) (subscribers st) (logger st) (log st) (calls st ++ [c]).

(** ** broadcaster.go *)

(** [if b.logger != nil { b.logger.<Level>(...) }] *)
Definition b_log (e : Entry) (st : State) : State :=
  match logger st with
  | Some _ => write_log e st
  | None => st
  end.

(** [NewBroadcaster(logger)] *)
Definition NewBroadcaster (lg : option zap_Logger) : State :=
  mkState ∅ ∅ lg [] [].

Definition registered_entry (id : string) : Entry :=
  mkEntry InfoLevel "subscriber registered" [zap_String "id" id].

Definition unregistered_entry (id : string) : Entry :=
  mkEntry InfoLevel "subscriber unregistered" [zap_String "id" id].

Definition broadcasted_entry (id : string) : Entry :=
  mkEntry DebugLevel "broadcasted message" [zap_String "subscriber_id" id].

Definition dropping_entry (id : string) : Entry :=
  mkEntry WarnLevel "dropping metrics: subscriber channel full"
          [zap_String "subscriber_id" id].

(** [b.subscribers[id] = ch] *)
Definition Register (id : string) (ch : chanref) (st : State) : State :=
  b_log (registered_entry id)
    (set_subscribers (<[id := ch]> (subscribers st))
       (record_call (CallRegister id ch) st)).

(** [delete(b.subscribers, id)] *)
Definition Unregister (id : string) (st : State) : State :=
  b_log (unregistered_entry id)
    (set_subscribers (delete id (subscribers st))
       (record_call (CallUnregister id) st)).

(** The send case of a [select]: ready exactly when the buffer has room. *)
Definition try_send (msg : Metrics) (c : chan) : option chan :=
  if decide (length (buf c) < cap c)
  then Some (mkChan (cap c) (buf c ++ [msg]))
  else None.

(** The body of the [range] loop for one entry:
    [select { case ch <- msg: ... default: ... }].  An address with no cell
    stands for a nil channel, whose send case is never ready. *)
Definition Broadcast_visit (msg : Metrics) (st : State) (e : string * nat) : State :=
  match heap st !! e.2 ≫= try_send msg with
  | Some c' => b_log (broadcasted_entry e.1) (set_heap (<[e.2 := c']> (heap st)) st)
  | None => b_log (dropping_entry e.1) st
  end.

(** [Broadcast(msg)], visiting the registry in [order]. *)
Definition Broadcast (order : Order) (msg : Metrics) (st : State) : State :=
  foldl (Broadcast_visit msg) (record_call (CallBroadcast msg) st) order.

(** The orders a [range] over the registry of [st] can take. *)
Definition range_of (st : State) (order : Order) : Prop :=
  order ≡ₚ map_to_list (subscribers st).

(** ** server.go *)

(** [s.logger.<Level>(...)]: the server calls its logger unguarded. *)
Definition s_log (e : Entry) (st : State) : State := write_log e st.

(** [NewMetricsServer(logger)]: the broadcaster is given the server's logger. *)
Definition NewMetricsServer (lg : zap_Logger) : State :=
  NewBroadcaster (Some lg).

(** What [stream.Recv()] returns: a request, or an error. *)
Inductive RecvResult :=
| Recv_ok (req : Metrics)
| Recv_err (err : error).

(** How one iteration of a [for] loop ends: it goes round again, or the
    function returns ([None] is Go's nil error). *)
Inductive Flow :=
| Continue
| Return (err : option error).

#[global] Instance Flow_eq_dec : EqDecision Flow.
Proof. solve_decision. Defined.

Definition started_entry : Entry :=
  mkEntry InfoLevel "started receiving metrics from agent" [].

Definition closed_entry : Entry :=
  mkEntry InfoLevel "agent stream closed, sending acknowledgment" [].

Definition recv_failed_entry (err : error) : Entry :=
  mkEntry ErrorLevel "failed to receive metrics from agent" [zap_Error err].

Definition batch_entry (req : Metrics) : Entry :=
  mkEntry InfoLevel "received metrics batch"
          [zap_String "host" (Hostname req);
           zap_Int "pods_count" (length (PodMetrics req))].

(** The agent's side of one [SendMetrics] stream, as the handler meets it:
    [acks] counts the calls of [stream.SendAndClose] (ghost), and
    [close_result] is what that call returns. *)
Record AgentStream := mkAgentStream {
  close_result : option error;
  acks : nat
}.

Definition SendAndClose (s : AgentStream) : AgentStream * option error :=
  (mkAgentStream (close_result s) (S (acks s)), close_result s).

(** One iteration of the [for] loop of [SendMetrics], given what [Recv]
    returned and the order the [range] inside [Broadcast] takes. *)
Definition SendMetrics_iter (r : RecvResult) (order : Order)
    (s : AgentStream) (st : State) : State * AgentStream * Flow :=
  match r with
  | Recv_err io_EOF =>
      let st1 := s_log closed_entry st in
      let '(s1, res) := SendAndClose s in
      (st1, s1, Return res)
  | Recv_err err =>
      (s_log (recv_failed_entry err) st, s, Return (Some err))
  | Recv_ok req =>
      let st1 := s_log (batch_entry req) st in
      (Broadcast order req st1, s, Continue)
  end.

(** The loop over what the agent's stream delivers.  When the agent sends
    nothing more and does not close, [Recv] never returns: the loop stays in
    [Continue]. *)
Fixpoint SendMetrics_loop (incoming : list (RecvResult * Order))
    (s : AgentStream) (st : State) : State * AgentStream * Flow :=
  match incoming with
  | [] => (st, s, Continue)
  | (r, order) :: rest =>
      match SendMetrics_iter r order s st with
      | (st1, s1, Continue) => SendMetrics_loop rest s1 st1
      | done => done
      end
  end.

(** [SendMetrics(stream)] *)
Definition SendMetrics (incoming : list (RecvResult * Order))
    (s : AgentStream) (st : State) : State * AgentStream * Flow :=
  SendMetrics_loop incoming s (s_log started_entry st).

(** [make(chan *gen.Metrics, n)]: a cell at a fresh address. *)
Definition make_chan (n : nat) (st : State) : nat * State :=
  let a := fresh (dom (heap st)) in
  (a, set_heap (<[a := mkChan n []]> (heap st)) st).

(** The receive case [msg := <-ch]: ready exactly when the buffer is not
    empty; takes the oldest element. *)
Definition try_recv (ch : chanref) (st : State) : option (Metrics * State) :=
  match heap st !! ch with
  | Some (mkChan n (msg :: rest)) =>
      Some (msg, set_heap (<[ch := mkChan n rest]> (heap st)) st)
  | _ => None
  end.

Definition connected_entry (id : string) : Entry :=
  mkEntry InfoLevel "subscriber connected" [zap_String "subscriber_id" id].

Definition disconnected_entry (id : string) : Entry :=
  mkEntry InfoLevel "subscriber disconnected" [zap_String "subscriber_id" id].

Definition send_failed_entry (id : string) (err : error) : Entry :=
  mkEntry ErrorLevel "failed to send metrics to subscriber"
          [zap_String "subscriber_id" id; zap_Error err].

Definition sent_entry (id : string) : Entry :=
  mkEntry DebugLevel "sent metrics to subscriber" [zap_String "subscriber_id" id].

Definition canceled_entry (id : string) : Entry :=
  mkEntry InfoLevel "subscriber context canceled" [zap_String "subscriber_id" id].

(** The capacity of every subscriber channel. *)
Definition mailbox_capacity : nat := 100.

(** [SubscribeMetrics] up to its [for] loop; [id] is what
    [uuid.New().String()] returned. *)
Definition SubscribeMetrics_begin (id : string) (st : State) : nat * State :=
  let '(ch, st1) := make_chan mailbox_capacity st in
  (ch, Register id ch (s_log (connected_entry id) st1)).

(** The deferred function, run on every return. *)
Definition SubscribeMetrics_deferred (id : string) (st : State) : State :=
  Unregister id (s_log (disconnected_entry id) st).

(** Which case of the [select] fires: the receive (with what [stream.Send]
    then returns), or [<-stream.Context().Done()]. *)
Inductive Ready :=
| ReadyMsg (send_result : option error)
| ReadyDone.

(** The subscriber's side of the stream (ghost): the samples [stream.Send]
    delivered, oldest first. *)
Record Subscription := mkSubscription {
  sub_id : string;
  sub_ch : nat;
  sub_sent : list Metrics;
  sub_flow : Flow
}.

(** One iteration of the [for]/[select] of [SubscribeMetrics]; [None] when the
    case is not ready (no element in the channel).  When the context is done,
    and what [stream.Send] returns, is the environment's choice.  Every
    [return] runs the deferred function before the call ends. *)
Definition SubscribeMetrics_iter (r : Ready) (l : Subscription) (st : State)
    : option (State * Subscription) :=
  let id := sub_id l in
  match r with
  | ReadyMsg send_result =>
      match try_recv (sub_ch l) st with
      | None => None
      | Some (msg, st1) =>
          match send_result with
          | Some err =>
              let st2 := s_log (send_failed_entry id err) st1 in
              Some (SubscribeMetrics_deferred id st2,
                    mkSubscription id (sub_ch l) (sub_sent l) (Return (Some err)))
          | None =>
              Some (s_log (sent_entry id) st1,
                    mkSubscription id (sub_ch l) (sub_sent l ++ [msg]) Continue)
          end
      end
  | ReadyDone =>
      let st1 := s_log (canceled_entry id) st in
      Some (SubscribeMetrics_deferred id st1,
            mkSubscription id (sub_ch l) (sub_sent l) (Return None))
  end.

(** ** The running server *)

(** The shared state and the [SubscribeMetrics] calls made so far, returned
    ones included. *)
Record System := mkSystem {
  shared : State;
  loops : list Subscription
}.

(** What can happen next: a subscriber connects and [uuid.New()] yields [id];
    the [select] of loop [k] fires; an agent connects; the [Recv] of some
    agent's loop returns. *)
Inductive Event :=
| EvSubscribe (id : string)
| EvSelect (k : nat) (r : Ready)
| EvAgentConnect
| EvAgentRecv (r : RecvResult) (order : Order) (s : AgentStream).

Definition sys_step (ev : Event) (sys : System) : option System :=
  match ev with
  | EvSubscribe id =>
      let '(ch, st1) := SubscribeMetrics_begin id (shared sys) in
      Some (mkSystem st1 (loops sys ++ [mkSubscription id ch [] Continue]))
  | EvSelect k r =>
      match loops sys !! k with
      | Some l =>
          match sub_flow l with
          | Continue =>
              match SubscribeMetrics_iter r l (shared sys) with
              | Some (st1, l1) => Some (mkSystem st1 (<[k := l1]> (loops sys)))
              | None => None
              end
          | Return _ => None
          end
      | None => None
      end
  | EvAgentConnect =>
      Some (mkSystem (s_log started_entry (shared sys)) (loops sys))
  | EvAgentRecv r order s =>
      Some (mkSystem (SendMetrics_iter r order s (shared sys)).1.1 (loops sys))
  end.

(** What the environment guarantees of an event: a generated id was never
    used before, and a [range] visits the entries of the registry. *)
Definition admissible (ev : Event) (sys : System) : Prop :=
  match ev with
  | EvSubscribe id => ∀ l, l ∈ loops sys → sub_id l ≠ id
  | EvAgentRecv (Recv_ok _) order _ => range_of (shared sys) order
  | _ => True
  end.

Inductive reachable (lg : zap_Logger) : System → Prop :=
| reach_init : reachable lg (mkSystem (NewMetricsServer lg) [])
| reach_step sys ev sys' :
    reachable lg sys →
    admissible ev sys →
    sys_step ev sys = Some sys' →
    reachable lg sys'.

(** ** Observations used in the statements *)

(** The samples passed to [Broadcast], in call order. *)
Definition broadcasts (cs : list Call) : list Metrics :=
  omap (λ c, match c with CallBroadcast m => Some m | _ => None end) cs.

(** The number of [Unregister(id)] calls. *)
Definition unregister_calls (id : string) (cs : list Call) : nat :=
  length (filter (λ c, c = CallUnregister id) cs).

(** The number of drop warnings, and of delivery entries, for [id]. *)
Definition drop_signals (id : string) (es : list Entry) : nat :=
  length (filter (λ e, e = dropping_entry id) es).

Definition delivery_signals (id : string) (es : list Entry) : nat :=
  length (filter (λ e, e = broadcasted_entry id) es).

(** No two ids share a channel. *)
Definition no_alias (st : State) : Prop :=
  ∀ i j a, subscribers st !! i = Some a → subscribers st !! j = Some a → i = j.

(** What one visit of [Broadcast] does to the channel it visits. *)
Definition deliver (msg : Metrics) (c : chan) : chan :=
  default c (try_send msg c).

(** The entry one visit writes, read off the store [h]. *)
Definition visit_entry (msg : Metrics) (h : gmap nat chan) (e : string * nat) : Entry :=
  match h !! e.2 ≫= try_send msg with
  | Some _ => broadcasted_entry e.1
  | None => dropping_entry e.1
  end.

(** The entries that reach the log through the broadcaster's logger. *)
Definition logged (st : State) (es : list Entry) : list Entry :=
  match logger st with
  | Some _ => es
  | None => []
  end.


(** ** Concrete states, built through the API *)

Definition sample (n : nat) : Metrics :=
  mkMetrics "node" (replicate n "pod").

(** A broadcaster with a logger and two subscribers: [slow], whose channel of
    capacity 1 is full, and [fast], whose channel of capacity 2 holds one
    sample. *)
Definition two_subscribers (lg : option zap_Logger) : State :=
  let '(c0, st0) := make_chan 1 (NewBroadcaster lg) in
  let st1 := Register "slow" c0 st0 in
  let '(c1, st2) := make_chan 2 st1 in
  let st3 := Register "fast" c1 st2 in
  Broadcast (map_to_list (subscribers st3)) (sample 0) st3.

(** A broadcaster with one subscriber [s], whose channel of capacity 2 is
    empty. *)
Definition one_subscriber (lg : option zap_Logger) : State :=
  let '(c0, st0) := make_chan 2 (NewBroadcaster lg) in
  Register "s" c0 st0.

(** A sequence of [Register] calls, in the order the mutex admits them. *)
Definition Register_all (regs : list (string * nat)) (st : State) : State :=
  foldl (λ st r, Register r.1 r.2 st) st regs.

(** An agent's stream that delivers the samples of [frames], one per [Recv];
    each sample comes with the order the [range] of its [Broadcast] takes. *)
Definition received (frames : list (Metrics * list (string * nat)))
    : list (RecvResult * list (string * nat)) :=
  (λ f, (Recv_ok f.1, f.2)) <$> frames.

(** The three ways one iteration of the [select] loop can go, as a relation
    ([SubscribeMetrics_iter_inv] reads it off [SubscribeMetrics_iter]). *)
Inductive iteration (l : Subscription) (st : State) (l' : Subscription) (st' : State)
    : Ready → Prop :=
| iter_sent n msg rest :
    heap st !! sub_ch l = Some (mkChan n (msg :: rest)) →
    heap st' = <[sub_ch l := mkChan n rest]> (heap st) →
    subscribers st' = subscribers st →
    calls st' = calls st →
    l' = mkSubscription (sub_id l) (sub_ch l) (sub_sent l ++ [msg]) Continue →
    iteration l st l' st' (ReadyMsg None)
| iter_send_failed err n msg rest :
    heap st !! sub_ch l = Some (mkChan n (msg :: rest)) →
    heap st' = <[sub_ch l := mkChan n rest]> (heap st) →
    subscribers st' = delete (sub_id l) (subscribers st) →
    calls st' = calls st ++ [CallUnregister (sub_id l)] →
    l' = mkSubscription (sub_id l) (sub_ch l) (sub_sent l) (Return (Some err)) →
    iteration l st l' st' (ReadyMsg (Some err))
| iter_canceled :
    heap st' = heap st →
    subscribers st' = delete (sub_id l) (subscribers st) →
    calls st' = calls st ++ [CallUnregister (sub_id l)] →
    l' = mkSubscription (sub_id l) (sub_ch l) (sub_sent l) (Return None) →
    iteration l st l' st' ReadyDone.

(** What holds of the running server at every moment. *)
Record sys_inv (sys : System) : Prop := mkSysInv {
  (** generated ids and made channels are pairwise distinct *)
  inv_ids : NoDup (sub_id <$> loops sys);
  inv_chans : NoDup (sub_ch <$> loops sys);
  (** every entry of the registry belongs to a loop that is streaming *)
  inv_registry : ∀ t a,
    subscribers (shared sys) !! t = Some a →
    ∃ k l, loops sys !! k = Some l ∧ sub_id l = t ∧ sub_ch l = a ∧
           sub_flow l = Continue;
  (** a streaming loop is registered and has not called [Unregister]; a
      returned loop is not registered and has called it once *)
  inv_loop : ∀ k l,
    loops sys !! k = Some l →
    match sub_flow l with
    | Continue =>
        subscribers (shared sys) !! sub_id l = Some (sub_ch l) ∧
        unregister_calls (sub_id l) (calls (shared sys)) = 0
    | Return _ =>
        subscribers (shared sys) !! sub_id l = None ∧
        unregister_calls (sub_id l) (calls (shared sys)) = 1
    end;
  inv_unused : ∀ t,
    t ∉ sub_id <$> loops sys →
    unregister_calls t (calls (shared sys)) = 0;
  (** the channel of a loop has the capacity it was made with, holds no more
      than that, and what the loop has sent followed by what waits in the
      channel is a subsequence of what was broadcast *)
  inv_mailbox : ∀ k l,
    loops sys !! k = Some l →
    ∃ c, heap (shared sys) !! sub_ch l = Some c ∧
         cap c = mailbox_capacity ∧
         length (buf c) ≤ cap c ∧
         sub_sent l ++ buf c `sublist_of` broadcasts (calls (shared sys))
}.

(** The server after the events [evs], one after the other (an event that is
    not enabled changes nothing). *)
Definition after (evs : list Event) (sys : System) : System :=
  foldl (λ sys ev, default sys (sys_step ev sys)) sys evs.

(** A short life of the server: a subscriber [a] connects, an agent connects
    and sends two samples, the subscriber is sent the first, and the send of
    the second fails. *)
Definition short_life : list Event :=
  [EvSubscribe "a";
   EvAgentConnect;
   EvAgentRecv (Recv_ok (sample 1)) [("a", 0)] (mkAgentStream None 0);
   EvAgentRecv (Recv_ok (sample 2)) [("a", 0)] (mkAgentStream None 0);
   EvSelect 0 (ReadyMsg None);
   EvSelect 0 (ReadyMsg (Some (transport_error "peer gone")))].

(** Another: both samples reach the subscriber. *)
Definition steady_life : list Event :=
  [EvSubscribe "a";
   EvAgentRecv (Recv_ok (sample 1)) [("a", 0)] (mkAgentStream None 0);
   EvAgentRecv (Recv_ok (sample 2)) [("a", 0)] (mkAgentStream None 0);
   EvSelect 0 (ReadyMsg None);
   EvSelect 0 (ReadyMsg None)].

(** Every event of [evs] is admissible and enabled when its turn comes. *)
Fixpoint admissible_all (evs : list Event) (sys : System) : Prop :=
  match evs with
  | [] => True
  | ev :: evs =>
      admissible ev sys ∧ is_Some (sys_step ev sys) ∧
      admissible_all evs (default sys (sys_step ev sys))
  end.

(** ** The loop of SubscribeMetrics as a whole *)

(** The [for] loop over the cases its [select] takes, one per iteration, until
    an iteration returns; [None] when a case of the script is not ready when
    its turn comes. *)
Fixpoint SubscribeMetrics_loop (rs : list Ready) (l : Subscription) (st : State)
    : option (State * Subscription) :=
  match rs with
  | [] => Some (st, l)
  | r :: rs =>
      match SubscribeMetrics_iter r l st with
      | Some (st1, l1) =>
          match sub_flow l1 with
          | Continue => SubscribeMetrics_loop rs l1 st1
          | Return _ => Some (st1, l1)
          end
      | None => None
      end
  end.

(** [SubscribeMetrics(_, stream)] run on its own, no other goroutine between
    its steps. *)
Definition SubscribeMetrics (id : string) (rs : list Ready) (st : State)
    : option (State * Subscription) :=
  let '(ch, st1) := SubscribeMetrics_begin id st in
  SubscribeMetrics_loop rs (mkSubscription id ch [] Continue) st1.

(** The same [Broadcast] calls made directly, one per frame. *)
Definition Broadcast_all (frames : list (Metrics * list (string * nat)))
    (st : State) : State :=
  foldl (λ st f, Broadcast f.2 f.1 st) st frames.

(** Every id of the registry is bound to a channel that was made. *)
Definition registry_allocated (st : State) : Prop :=
  ∀ t a, subscribers st !! t = Some a → is_Some (heap st !! a).

(** ** pkg/cli *)

Record RelayConfig := mkRelayConfig {
  RelayAddress : string
}.

(** What [flag.Parse] found on the command line for the two flags registered
    here: the value given to [--relay-address], if any, and whether
    [--version] is set. *)
Record CommandLine := mkCommandLine {
  arg_relay_address : option string;
  arg_version : bool
}.

(** [fs.String(name, value, usage)] after parsing: the value given, or the
    default [value]. *)
Definition flag_String (given : option string) (value : string) : string :=
  default value given.

(** How the closure returned by [RegisterRelayFlags] ends: [os.Exit(code)]
    after printing, [logger.Fatal(msg)], or a configuration. *)
Inductive CliResult :=
| Exit (code : nat) (stdout : string)
| Fatal (msg : string)
| Config (cfg : RelayConfig).

(** [RegisterRelayFlags(fs)(logger)]; [Version] is [buildinfo.Version], which
    is set at link time. *)
Definition RegisterRelayFlags (Version : string) (cl : CommandLine) : CliResult :=
  let relayAddress := flag_String (arg_relay_address cl) "localhost:50051" in
  let version := arg_version cl in
  if version then Exit 0 (Version +:+ String (Ascii.ascii_of_nat 10) "")
  else if decide (relayAddress = "") then
    Fatal "missing required flag: --relay-address"
  else Config (mkRelayConfig relayAddress).

(** * Proofs *)

(** ** Frame facts of the state updates *)

Lemma b_log_heap e st : heap (b_log e st) = heap st.
Proof. unfold b_log. by destruct (logger st). Qed.

Lemma b_log_subscribers e st : subscribers (b_log e st) = subscribers st.
Proof. unfold b_log. by destruct (logger st). Qed.

Lemma b_log_logger e st : logger (b_log e st) = logger st.
Proof. unfold b_log. by destruct (logger st) eqn:E. Qed.

Lemma b_log_calls e st : calls (b_log e st) = calls st.
Proof. unfold b_log. by destruct (logger st). Qed.

Lemma b_log_log e st :
  log (b_log e st) = log st ++ logged st [e].
Proof. unfold b_log, logged. destruct (logger st); simpl; by rewrite ?app_nil_r. Qed.

Create Rewrite HintDb frame.
#[local] Hint Rewrite b_log_heap b_log_subscribers b_log_logger b_log_calls : frame.

Ltac frame := repeat (autorewrite with frame; simpl).

(** ** One visit, and the whole range *)

Lemma deliver_cap msg c : cap (deliver msg c) = cap c.
Proof. unfold deliver, try_send. by case_decide. Qed.

Lemma deliver_room msg c :
  length (buf c) < cap c → deliver msg c = mkChan (cap c) (buf c ++ [msg]).
Proof. intros. unfold deliver, try_send. by case_decide. Qed.

Lemma deliver_full msg c : ¬ length (buf c) < cap c → deliver msg c = c.
Proof. intros. unfold deliver, try_send. by case_decide. Qed.

Lemma visit_heap msg st e :
  heap (Broadcast_visit msg st e) = alter (deliver msg) e.2 (heap st).
Proof.
  apply map_eq; intros a. rewrite lookup_alter.
  unfold Broadcast_visit, deliver.
  destruct (heap st !! e.2) as [c|] eqn:Hc; simpl.
  - destruct (try_send msg c) as [c'|]; frame.
    + rewrite lookup_insert. by case_decide; subst.
    + case_decide; subst; [|done]. by rewrite Hc.
  - frame. case_decide; subst; [|done]. by rewrite Hc.
Qed.

Lemma visit_subscribers msg st e :
  subscribers (Broadcast_visit msg st e) = subscribers st.
Proof. unfold Broadcast_visit. by destruct (_ ≫= _); frame. Qed.

Lemma visit_logger msg st e : logger (Broadcast_visit msg st e) = logger st.
Proof. unfold Broadcast_visit. by destruct (_ ≫= _); frame. Qed.

Lemma visit_calls msg st e : calls (Broadcast_visit msg st e) = calls st.
Proof. unfold Broadcast_visit. by destruct (_ ≫= _); frame. Qed.

Lemma visit_log msg st e :
  log (Broadcast_visit msg st e)
  = log st ++ logged st [visit_entry msg (heap st) e].
Proof.
  unfold Broadcast_visit, visit_entry.
  destruct (_ ≫= _); rewrite b_log_log; simpl; done.
Qed.

Lemma range_subscribers msg order st :
  subscribers (foldl (Broadcast_visit msg) st order) = subscribers st.
Proof.
  revert st; induction order as [|e order IH]; intros st; simpl; [done|].
  by rewrite IH, visit_subscribers.
Qed.

Lemma range_logger msg order st :
  logger (foldl (Broadcast_visit msg) st order) = logger st.
Proof.
  revert st; induction order as [|e order IH]; intros st; simpl; [done|].
  by rewrite IH, visit_logger.
Qed.

Lemma range_calls msg order st :
  calls (foldl (Broadcast_visit msg) st order) = calls st.
Proof.
  revert st; induction order as [|e order IH]; intros st; simpl; [done|].
  by rewrite IH, visit_calls.
Qed.

(** A channel the range does not visit is left as it was. *)
Lemma range_heap_other msg order st a :
  a ∉ order.*2 →
  heap (foldl (Broadcast_visit msg) st order) !! a = heap st !! a.
Proof.
  revert st; induction order as [|e order IH]; intros st Ha; simpl; [done|].
  rewrite fmap_cons, not_elem_of_cons in Ha. destruct Ha as [Hne Ha].
  rewrite IH by done. rewrite visit_heap, lookup_alter_ne; done.
Qed.

(** A channel visited once gets one send attempt. *)
Lemma range_heap_visited msg order st a :
  NoDup order.*2 → a ∈ order.*2 →
  heap (foldl (Broadcast_visit msg) st order) !! a = deliver msg <$> heap st !! a.
Proof.
  revert st; induction order as [|e order IH]; intros st Hnd Ha; simpl.
  - by apply elem_of_nil in Ha.
  - rewrite fmap_cons in Hnd, Ha. apply NoDup_cons in Hnd as [Hfresh Hnd].
    apply elem_of_cons in Ha as [->|Ha].
    + rewrite range_heap_other by done. by rewrite visit_heap, lookup_alter_eq.
    + rewrite IH by done. rewrite visit_heap, lookup_alter_ne; [done|].
      intros Heq. by rewrite Heq in Hfresh.
Qed.

(** Every visit of a range over distinct channels sees its channel as it was
    before the range. *)
Lemma range_log msg order st :
  NoDup order.*2 →
  log (foldl (Broadcast_visit msg) st order)
  = log st ++ logged st (visit_entry msg (heap st) <$> order).
Proof.
  revert st; induction order as [|e order IH]; intros st Hnd; simpl.
  - unfold logged. destruct (logger st); by rewrite app_nil_r.
  - rewrite fmap_cons in Hnd. apply NoDup_cons in Hnd as [Hfresh Hnd].
    rewrite IH by done. rewrite visit_log. unfold logged. rewrite visit_logger.
    destruct (logger st); [|by rewrite !app_nil_r].
    rewrite <- app_assoc. simpl. do 2 f_equal.
    apply list_fmap_ext. intros i x Hx.
    unfold visit_entry. rewrite visit_heap, lookup_alter_ne; [done|].
    intros Heq. apply Hfresh. rewrite Heq.
    apply list_elem_of_fmap. exists x. split; [done|].
    by apply list_elem_of_lookup_2 in Hx.
Qed.

(** ** What a range over the registry looks like *)

Lemma range_of_elem st order id a :
  range_of st order → (id, a) ∈ order ↔ subscribers st !! id = Some a.
Proof.
  unfold range_of. intros Hp. rewrite Hp. apply elem_of_map_to_list.
Qed.

Lemma range_of_NoDup_ids st order : range_of st order → NoDup order.*1.
Proof.
  unfold range_of. intros ->. apply NoDup_fst_map_to_list.
Qed.

Lemma range_of_NoDup_chans st order :
  range_of st order → no_alias st → NoDup order.*2.
Proof.
  intros Hp Hinj. apply NoDup_fmap_2_strong.
  - intros [i a] [j b] Hi Hj; simpl; intros <-.
    apply (range_of_elem _ _ _ _ Hp) in Hi, Hj.
    by rewrite (Hinj i j a Hi Hj).
  - unfold range_of in Hp. rewrite Hp. apply NoDup_map_to_list.
Qed.

Lemma range_of_chan st order a :
  range_of st order → a ∈ order.*2 ↔ ∃ id, subscribers st !! id = Some a.
Proof.
  intros Hp. rewrite list_elem_of_fmap. split.
  - intros [[i b] [-> Hin]]. exists i. by apply (range_of_elem _ _ _ _ Hp).
  - intros [i Hi]. exists (i, a). split; [done|].
    by apply (range_of_elem _ _ _ _ Hp).
Qed.

Lemma Broadcast_subscribers order msg st :
  subscribers (Broadcast order msg st) = subscribers st.
Proof. unfold Broadcast. by rewrite range_subscribers. Qed.

Lemma Broadcast_logger order msg st :
  logger (Broadcast order msg st) = logger st.
Proof. unfold Broadcast. by rewrite range_logger. Qed.

Lemma Broadcast_calls order msg st :
  calls (Broadcast order msg st) = calls st ++ [CallBroadcast msg].
Proof. unfold Broadcast. by rewrite range_calls. Qed.

(** The channel of a registered id gets one send attempt. *)
Lemma Broadcast_heap_registered order msg st id a :
  range_of st order → no_alias st → subscribers st !! id = Some a →
  heap (Broadcast order msg st) !! a = deliver msg <$> heap st !! a.
Proof.
  intros Hp Hinj Hid. unfold Broadcast.
  rewrite range_heap_visited; [done| |].
  - by apply (range_of_NoDup_chans st).
  - apply (range_of_chan st); eauto.
Qed.

(** A channel of no registered id is not touched. *)
Lemma Broadcast_heap_unregistered order msg st a :
  range_of st order → (∀ id, subscribers st !! id ≠ Some a) →
  heap (Broadcast order msg st) !! a = heap st !! a.
Proof.
  intros Hp Hno. unfold Broadcast. rewrite range_heap_other; [done|].
  intros [id Hid]%(range_of_chan st); [|done]. by apply (Hno id).
Qed.

Lemma Broadcast_log order msg st :
  range_of st order → no_alias st →
  log (Broadcast order msg st)
  = log st ++ logged st (visit_entry msg (heap st) <$> order).
Proof.
  intros Hp Hinj. unfold Broadcast. rewrite range_log.
  - done.
  - by apply (range_of_NoDup_chans st).
Qed.

(** ** Counting entries *)

Lemma drop_signals_app id l1 l2 :
  drop_signals id (l1 ++ l2) = drop_signals id l1 + drop_signals id l2.
Proof. unfold drop_signals. by rewrite filter_app, length_app. Qed.

Lemma delivery_signals_app id l1 l2 :
  delivery_signals id (l1 ++ l2) = delivery_signals id l1 + delivery_signals id l2.
Proof. unfold delivery_signals. by rewrite filter_app, length_app. Qed.

Lemma drop_signals_absent msg h id order :
  id ∉ order.*1 → drop_signals id (visit_entry msg h <$> order) = 0.
Proof.
  induction order as [|[i b] order IH]; [done|].
  rewrite !fmap_cons, not_elem_of_cons. simpl. intros [Hne Hid].
  unfold drop_signals in *. rewrite filter_cons.
  case_decide as Heq; [|by apply IH].
  unfold visit_entry in Heq. simpl in Heq.
  destruct (_ ≫= _); by inversion Heq.
Qed.

Lemma delivery_signals_absent msg h id order :
  id ∉ order.*1 → delivery_signals id (visit_entry msg h <$> order) = 0.
Proof.
  induction order as [|[i b] order IH]; [done|].
  rewrite !fmap_cons, not_elem_of_cons. simpl. intros [Hne Hid].
  unfold delivery_signals in *. rewrite filter_cons.
  case_decide as Heq; [|by apply IH].
  unfold visit_entry in Heq. simpl in Heq.
  destruct (_ ≫= _); by inversion Heq.
Qed.

(** Among the entries of one range, those of [id] are the one its own visit
    wrote. *)
Lemma signals_present msg h id a order :
  NoDup order.*1 → (id, a) ∈ order →
  drop_signals id (visit_entry msg h <$> order)
  = (if h !! a ≫= try_send msg is Some _ then 0 else 1) ∧
  delivery_signals id (visit_entry msg h <$> order)
  = (if h !! a ≫= try_send msg is Some _ then 1 else 0).
Proof.
  induction order as [|[i b] order IH]; intros Hnd Hin.
  - by apply elem_of_nil in Hin.
  - rewrite fmap_cons in Hnd. apply NoDup_cons in Hnd as [Hfresh Hnd].
    simpl in Hfresh. rewrite fmap_cons.
    change (visit_entry msg h (i, b) :: (visit_entry msg h <$> order))
      with ([visit_entry msg h (i, b)] ++ (visit_entry msg h <$> order)).
    rewrite drop_signals_app, delivery_signals_app.
    apply elem_of_cons in Hin as [Heq|Hin].
    + inversion Heq; subst i b.
      rewrite drop_signals_absent, delivery_signals_absent by done.
      unfold drop_signals, delivery_signals, visit_entry; simpl.
      destruct (h !! a ≫= try_send msg); rewrite !filter_cons, !filter_nil;
        repeat case_decide; simpl; done.
    + destruct (IH Hnd Hin) as [-> ->].
      assert (i ≠ id) as Hne.
      { intros ->. apply Hfresh. apply list_elem_of_fmap. by exists (id, a). }
      unfold drop_signals, delivery_signals, visit_entry; simpl.
      destruct (h !! b ≫= try_send msg); rewrite !filter_cons, !filter_nil;
        repeat case_decide; simpl; try done;
        unfold broadcasted_entry, dropping_entry in *; congruence.
Qed.

(** ** Deciding [no_alias] *)

Lemma NoDup_fmap_inj_on {A B} (f : A → B) (l : list A) x y :
  NoDup (f <$> l) → x ∈ l → y ∈ l → f x = f y → x = y.
Proof.
  induction l as [|z l IH]; intros Hnd Hx Hy Heq.
  - by apply elem_of_nil in Hx.
  - rewrite fmap_cons in Hnd. apply NoDup_cons in Hnd as [Hz Hnd].
    apply elem_of_cons in Hx as [->|Hx]; apply elem_of_cons in Hy as [->|Hy].
    + done.
    + exfalso. apply Hz. rewrite Heq. apply list_elem_of_fmap. by exists y.
    + exfalso. apply Hz. rewrite <- Heq. apply list_elem_of_fmap. by exists x.
    + by apply IH.
Qed.

Lemma no_alias_NoDup st :
  no_alias st ↔ NoDup (map_to_list (subscribers st)).*2.
Proof.
  split.
  - intros Hinj. apply (range_of_NoDup_chans st); [by unfold range_of|done].
  - intros Hnd i j a Hi Hj.
    apply elem_of_map_to_list in Hi, Hj.
    pose proof (NoDup_fmap_inj_on snd _ (i, a) (j, a) Hnd Hi Hj eq_refl) as Heq.
    by inversion Heq.
Qed.

Lemma range_of_refl st : range_of st (map_to_list (subscribers st)).
Proof. by unfold range_of. Qed.

(** * Broadcast *)

(** C1 (counterexample).  The broadcaster may be built without a logger
    ([NewBroadcaster(nil)]).  Then a sample dropped at the full channel of
    [slow] leaves no trace: the log stays empty, no drop signal is recorded. *)
Lemma Broadcast_drop_unrecorded_without_logger :
  let st := two_subscribers None in
  let st' := Broadcast (map_to_list (subscribers st)) (sample 1) st in
  subscribers st !! "slow" = Some 0 ∧
  heap st !! 0 = Some (mkChan 1 [sample 0]) ∧
  heap st' !! 0 = Some (mkChan 1 [sample 0]) ∧
  drop_signals "slow" (log st') = 0 ∧
  log st' = [].
Proof. vm_compute. repeat split; reflexivity. Qed.

(** C1 (amended).  [Broadcast] is a total function of the state: every visit
    is a [select] with a [default] arm.  For every state whose ids do not
    share channels, every sample and every visiting order of the registry,
    each registered subscriber whose channel has room has the sample appended
    to it and gets no drop signal; each subscriber whose channel is full keeps
    its channel unchanged, and one drop signal for it is written when the
    broadcaster has a logger and none when it has not.  Either outcome depends
    on the subscriber's own channel only.  Nothing written is at error
    level. *)
Theorem Broadcast_delivers_or_drops order msg st id a c :
  range_of st order → no_alias st →
  subscribers st !! id = Some a → heap st !! a = Some c →
  let st' := Broadcast order msg st in
  (length (buf c) < cap c →
     heap st' !! a = Some (mkChan (cap c) (buf c ++ [msg])) ∧
     drop_signals id (log st') = drop_signals id (log st)) ∧
  (cap c ≤ length (buf c) →
     heap st' !! a = Some c ∧
     drop_signals id (log st')
     = drop_signals id (log st) + (if logger st is Some _ then 1 else 0)) ∧
  (∃ new, log st' = log st ++ new ∧ Forall (λ e, level e ≠ ErrorLevel) new).
Proof.
  intros Hp Hinj Hid Hc st'. subst st'.
  assert ((id, a) ∈ order) as Hin by by apply (range_of_elem st).
  pose proof (range_of_NoDup_ids _ _ Hp) as Hnd.
  destruct (signals_present msg (heap st) id a order Hnd Hin) as [Hdrop _].
  rewrite Hc in Hdrop. simpl in Hdrop.
  rewrite (Broadcast_heap_registered _ _ _ _ _ Hp Hinj Hid), Hc. simpl.
  rewrite (Broadcast_log _ _ _ Hp Hinj), drop_signals_app.
  split; [|split].
  - intros Hroom. rewrite deliver_room by done. split; [done|].
    unfold logged. destruct (logger st); [|by unfold drop_signals; simpl; lia].
    rewrite Hdrop. unfold try_send. case_decide; [lia|done].
  - intros Hfull. rewrite deliver_full by lia. split; [done|].
    unfold logged. destruct (logger st); [|done].
    rewrite Hdrop. unfold try_send. case_decide; [lia|done].
  - eexists; split; [done|].
    unfold logged. destruct (logger st); [|done].
    apply Forall_fmap, Forall_forall. intros e _.
    unfold compose, visit_entry. clear Hdrop. by case_match.
Qed.

Lemma Broadcast_delivers_or_drops_witness :
  let st := two_subscribers (Some Zap) in
  let st' := Broadcast (map_to_list (subscribers st)) (sample 1) st in
  heap st' !! 0 = Some (mkChan 1 [sample 0]) ∧
  drop_signals "slow" (log st') = drop_signals "slow" (log st) + 1 ∧
  heap st' !! 1 = Some (mkChan 2 [sample 0; sample 1]).
Proof.
  intros st st'.
  destruct (Broadcast_delivers_or_drops (map_to_list (subscribers st))
              (sample 1) st "slow" 0 (mkChan 1 [sample 0]))
    as (_ & Hfull & _).
  - apply range_of_refl.
  - apply no_alias_NoDup, (bool_decide_unpack _). vm_compute. reflexivity.
  - vm_compute. reflexivity.
  - vm_compute. reflexivity.
  - destruct Hfull as [H0 H1]; [simpl; lia|].
    split; [exact H0|]. split; [exact H1|].
    vm_compute. reflexivity.
Defined.

(** A range keeps the addresses of the store and the capacity of every
    channel. *)
Lemma range_heap_shape msg order st :
  dom (heap (foldl (Broadcast_visit msg) st order)) = dom (heap st) ∧
  ∀ a c, heap st !! a = Some c →
    ∃ c', heap (foldl (Broadcast_visit msg) st order) !! a = Some c' ∧
          cap c' = cap c.
Proof.
  revert st. induction order as [|e order IH]; intros st; simpl.
  - split; [done|]. intros a c Hc. by exists c.
  - destruct (IH (Broadcast_visit msg st e)) as [Hdom Hcap].
    rewrite visit_heap in Hdom, Hcap. split.
    + rewrite Hdom. apply dom_alter_L.
    + intros a c Hc.
      destruct (Hcap a (if decide (e.2 = a) then deliver msg c else c))
        as (c' & Hc' & Hcap').
      { rewrite lookup_alter. case_decide; subst; by rewrite ?Hc. }
      exists c'. split; [done|]. rewrite Hcap'.
      case_decide; [apply deliver_cap|done].
Qed.

(** C9.  For every state, sample and visiting order, [Broadcast] leaves the
    registry as it was: the same ids, each bound to the same channel.  The
    channel store keeps its addresses and every channel keeps its capacity;
    only buffers change.  A drop, in particular, removes nobody. *)
Theorem Broadcast_preserves_registry order msg st :
  subscribers (Broadcast order msg st) = subscribers st ∧
  dom (heap (Broadcast order msg st)) = dom (heap st) ∧
  ∀ a c, heap st !! a = Some c →
    ∃ c', heap (Broadcast order msg st) !! a = Some c' ∧ cap c' = cap c.
Proof.
  split; [apply Broadcast_subscribers|].
  apply (range_heap_shape msg order (record_call (CallBroadcast msg) st)).
Qed.

(** What one [Broadcast] does for a registered id, in one place. *)
Lemma Broadcast_at order msg st id a c :
  range_of st order → no_alias st →
  subscribers st !! id = Some a → heap st !! a = Some c →
  heap (Broadcast order msg st) !! a = Some (deliver msg c) ∧
  drop_signals id (log (Broadcast order msg st))
  = drop_signals id (log st)
    + match logger st, try_send msg c with
      | Some _, None => 1
      | _, _ => 0
      end.
Proof.
  intros Hp Hinj Hid Hc.
  assert ((id, a) ∈ order) as Hin by by apply (range_of_elem st).
  pose proof (range_of_NoDup_ids _ _ Hp) as Hnd.
  destruct (signals_present msg (heap st) id a order Hnd Hin) as [Hdrop _].
  rewrite Hc in Hdrop. simpl in Hdrop.
  rewrite (Broadcast_heap_registered _ _ _ _ _ Hp Hinj Hid), Hc.
  split; [done|].
  rewrite (Broadcast_log _ _ _ Hp Hinj), drop_signals_app.
  unfold logged. destruct (logger st).
  - rewrite Hdrop. by destruct (try_send msg c).
  - done.
Qed.

Lemma Broadcast_range_of order msg st order' :
  range_of (Broadcast order msg st) order' ↔ range_of st order'.
Proof. unfold range_of. by rewrite Broadcast_subscribers. Qed.

Lemma Broadcast_no_alias order msg st :
  no_alias (Broadcast order msg st) ↔ no_alias st.
Proof. unfold no_alias. by rewrite Broadcast_subscribers. Qed.

(** C5 (counterexample).  With a broadcaster built without a logger, the third
    sample is dropped at the full channel of capacity 2 and no drop signal is
    recorded: the log is empty. *)
Lemma scenario_A_drop_unrecorded_without_logger :
  let st := one_subscriber None in
  let o := map_to_list (subscribers st) in
  let st' := Broadcast o (sample 3) (Broadcast o (sample 2) (Broadcast o (sample 1) st)) in
  heap st !! 0 = Some (mkChan 2 []) ∧
  heap st' !! 0 = Some (mkChan 2 [sample 1; sample 2]) ∧
  drop_signals "s" (log st') = 0 ∧
  log st' = [].
Proof. vm_compute. repeat split; reflexivity. Qed.

(** C5 (amended).  A subscriber is registered with an empty channel of capacity
    2 that nobody else is registered with.  After [Broadcast] of [m1], [m2],
    [m3] in that order, whatever the visiting orders and whoever else is
    registered, its channel holds exactly [m1; m2]: [m3] is dropped.  Exactly
    one drop signal for it is recorded when the broadcaster has a logger, and
    none when it has not. *)
Theorem scenario_A_drop_newest o1 o2 o3 m1 m2 m3 st id a :
  no_alias st →
  range_of st o1 → range_of st o2 → range_of st o3 →
  subscribers st !! id = Some a → heap st !! a = Some (mkChan 2 []) →
  let st' := Broadcast o3 m3 (Broadcast o2 m2 (Broadcast o1 m1 st)) in
  heap st' !! a = Some (mkChan 2 [m1; m2]) ∧
  drop_signals id (log st')
  = drop_signals id (log st) + (if logger st is Some _ then 1 else 0).
Proof.
  intros Hinj H1 H2 H3 Hid Hc st'. subst st'.
  destruct (Broadcast_at o1 m1 st id a _ H1 Hinj Hid Hc) as [Hh1 Hd1].
  set (st1 := Broadcast o1 m1 st) in *.
  assert (subscribers st1 !! id = Some a) as Hid1
    by by unfold st1; rewrite Broadcast_subscribers.
  destruct (Broadcast_at o2 m2 st1 id a _
              (proj2 (Broadcast_range_of _ _ _ _) H2)
              (proj2 (Broadcast_no_alias _ _ _) Hinj) Hid1 Hh1) as [Hh2 Hd2].
  set (st2 := Broadcast o2 m2 st1) in *.
  assert (subscribers st2 !! id = Some a) as Hid2
    by by unfold st2; rewrite Broadcast_subscribers.
  destruct (Broadcast_at o3 m3 st2 id a _
              (proj2 (Broadcast_range_of _ _ _ _)
                 (proj2 (Broadcast_range_of _ _ _ _) H3))
              (proj2 (Broadcast_no_alias _ _ _)
                 (proj2 (Broadcast_no_alias _ _ _) Hinj)) Hid2 Hh2) as [Hh3 Hd3].
  split; [exact Hh3|].
  rewrite Hd3, Hd2, Hd1. unfold st2, st1. rewrite !Broadcast_logger.
  destruct (logger st); simpl; lia.
Qed.

Lemma scenario_A_drop_newest_witness :
  let st := one_subscriber (Some Zap) in
  let o := map_to_list (subscribers st) in
  let st' := Broadcast o (sample 3) (Broadcast o (sample 2) (Broadcast o (sample 1) st)) in
  heap st' !! 0 = Some (mkChan 2 [sample 1; sample 2]) ∧
  drop_signals "s" (log st') = drop_signals "s" (log st) + 1.
Proof.
  intros st o st'.
  apply (scenario_A_drop_newest o o o (sample 1) (sample 2) (sample 3) st "s" 0).
  - apply no_alias_NoDup, (bool_decide_unpack _). vm_compute. reflexivity.
  - apply range_of_refl.
  - apply range_of_refl.
  - apply range_of_refl.
  - vm_compute. reflexivity.
  - vm_compute. reflexivity.
Defined.

(** * Register and Unregister *)

Lemma Unregister_subscribers id st :
  subscribers (Unregister id st) = delete id (subscribers st).
Proof. unfold Unregister. by frame. Qed.

Lemma Unregister_heap id st : heap (Unregister id st) = heap st.
Proof. unfold Unregister. by frame. Qed.

Lemma Unregister_logger id st : logger (Unregister id st) = logger st.
Proof. unfold Unregister. by frame. Qed.

Lemma Unregister_calls id st :
  calls (Unregister id st) = calls st ++ [CallUnregister id].
Proof. unfold Unregister. by frame. Qed.

Lemma Register_subscribers id ch st :
  subscribers (Register id ch st) = <[id := ch]> (subscribers st).
Proof. unfold Register. by frame. Qed.

Lemma Register_heap id ch st : heap (Register id ch st) = heap st.
Proof. unfold Register. by frame. Qed.

Lemma Register_logger id ch st : logger (Register id ch st) = logger st.
Proof. unfold Register. by frame. Qed.

Lemma Register_calls id ch st :
  calls (Register id ch st) = calls st ++ [CallRegister id ch].
Proof. unfold Register. by frame. Qed.

(** C6.  [Unregister] is a total function (Go's [delete] of an absent key does
    nothing and cannot fail).  For an id that is not registered it leaves the
    registry, the channel store and the logger field as they were; and for
    every id and state, a second call leaves the registry and the store as the
    first call left them.  (Each call still writes its informational log
    line when there is a logger.) *)
Theorem Unregister_idempotent id st :
  (subscribers st !! id = None →
     subscribers (Unregister id st) = subscribers st ∧
     heap (Unregister id st) = heap st ∧
     logger (Unregister id st) = logger st) ∧
  subscribers (Unregister id (Unregister id st)) = subscribers (Unregister id st) ∧
  heap (Unregister id (Unregister id st)) = heap (Unregister id st) ∧
  subscribers (Unregister id st) !! id = None.
Proof.
  rewrite !Unregister_subscribers, !Unregister_heap, Unregister_logger.
  split; [|split; [|split]].
  - intros Habs. by rewrite delete_id.
  - by rewrite delete_delete_eq.
  - done.
  - apply lookup_delete_eq.
Qed.

Lemma Unregister_idempotent_witness :
  subscribers (Unregister "ghost" (two_subscribers (Some Zap)))
  = subscribers (two_subscribers (Some Zap)) ∧
  subscribers (Unregister "slow" (Unregister "slow" (two_subscribers (Some Zap))))
  = subscribers (Unregister "slow" (two_subscribers (Some Zap))).
Proof.
  destruct (Unregister_idempotent "ghost" (two_subscribers (Some Zap)))
    as [Habsent _].
  destruct (Unregister_idempotent "slow" (two_subscribers (Some Zap)))
    as (_ & Htwice & _).
  split; [|exact Htwice].
  apply Habsent. vm_compute. reflexivity.
Defined.

Lemma Register_all_snoc regs r st :
  Register_all (regs ++ [r]) st = Register r.1 r.2 (Register_all regs st).
Proof. unfold Register_all. by rewrite foldl_app. Qed.

(** C7.  For every sequence of [Register] calls whose ids are pairwise
    distinct and not yet in the registry, every call adds an entry: the
    registry grows by exactly the number of calls, every registered id is bound
    to the channel it was registered with, and every entry that was there
    before is still there, bound as before. *)
Theorem Register_distinct regs st :
  NoDup regs.*1 →
  (∀ id, id ∈ regs.*1 → subscribers st !! id = None) →
  let st' := Register_all regs st in
  size (subscribers st') = size (subscribers st) + length regs ∧
  (∀ id ch, (id, ch) ∈ regs → subscribers st' !! id = Some ch) ∧
  (∀ id ch, subscribers st !! id = Some ch → subscribers st' !! id = Some ch) ∧
  (∀ id, subscribers st' !! id = None ↔
         subscribers st !! id = None ∧ id ∉ regs.*1).
Proof.
  induction regs as [|[i c] regs IH] using rev_ind; intros Hnd Hnew st'; subst st'.
  - unfold Register_all. simpl. split; [lia|]. split; [|split; [done|]].
    + by intros ?? ?%elem_of_nil.
    + intros id. split; [|by intros [??]].
      intros Hid. split; [done|]. apply not_elem_of_nil.
  - rewrite fmap_app in Hnd, Hnew. simpl in Hnd, Hnew.
    apply NoDup_app in Hnd as (Hnd & Hdisj & _).
    destruct IH as (Hsize & Hreg & Hold & Hnone); [done| |].
    { intros id Hid. apply Hnew, elem_of_app. by left. }
    assert (i ∉ regs.*1) as Hi.
    { intros Hin. apply (Hdisj i Hin). by apply list_elem_of_singleton. }
    assert (subscribers (Register_all regs st) !! i = None) as Hfree.
    { apply Hnone. split; [|done]. apply Hnew, elem_of_app. right.
      by apply list_elem_of_singleton. }
    rewrite Register_all_snoc, Register_subscribers. simpl.
    split; [|split; [|split]].
    + rewrite map_size_insert_None by done. rewrite Hsize, length_app. simpl. lia.
    + intros id ch [Hin|Hin%list_elem_of_singleton]%elem_of_app.
      * rewrite lookup_insert_ne; [by apply Hreg|].
        intros <-. apply Hi. apply list_elem_of_fmap. by exists (i, ch).
      * inversion Hin; subst. apply lookup_insert_eq.
    + intros id ch Hid. rewrite lookup_insert_ne; [by apply Hold|].
      intros <-. rewrite Hnew in Hid; [done|]. apply elem_of_app. right.
      by apply list_elem_of_singleton.
    + intros id. rewrite fmap_app, lookup_insert_None, Hnone, not_elem_of_app.
      simpl. rewrite list_elem_of_singleton. intuition congruence.
Qed.

Lemma Register_distinct_witness :
  let st := Register_all [("a", 0); ("b", 1); ("c", 2)] (two_subscribers (Some Zap)) in
  size (subscribers st) = 5 ∧
  subscribers st !! "b" = Some 1 ∧
  subscribers st !! "slow" = Some 0.
Proof.
  intros st.
  destruct (Register_distinct [("a", 0); ("b", 1); ("c", 2)]
              (two_subscribers (Some Zap))) as (Hsize & Hreg & Hold & _).
  - apply (bool_decide_unpack _). vm_compute. reflexivity.
  - intros id Hid. simpl in Hid.
    repeat (apply elem_of_cons in Hid as [->|Hid]; [vm_compute; reflexivity|]).
    by apply elem_of_nil in Hid.
  - split; [exact Hsize|]. split.
    + apply Hreg. apply (bool_decide_unpack _). vm_compute. reflexivity.
    + apply Hold. vm_compute. reflexivity.
Defined.

(** * SendMetrics *)

Lemma SendMetrics_iter_ok req order s st :
  SendMetrics_iter (Recv_ok req) order s st
  = (Broadcast order req (s_log (batch_entry req) st), s, Continue).
Proof. done. Qed.

(** The loop hands every received sample to [Broadcast], in receipt order, and
    goes on with what the stream delivers next. *)
Lemma SendMetrics_loop_received frames tail s st :
  ∃ st1,
    SendMetrics_loop (received frames ++ tail) s st = SendMetrics_loop tail s st1 ∧
    calls st1 = calls st ++ (CallBroadcast <$> frames.*1).
Proof.
  revert st. induction frames as [|[req order] frames IH]; intros st.
  - exists st. simpl. by rewrite app_nil_r.
  - destruct (IH (Broadcast order req (s_log (batch_entry req) st)))
      as (st1 & Hloop & Hcalls).
    exists st1. split; [exact Hloop|].
    rewrite Hcalls, Broadcast_calls. simpl. by rewrite <- app_assoc.
Qed.

Lemma broadcasts_app cs1 cs2 :
  broadcasts (cs1 ++ cs2) = broadcasts cs1 ++ broadcasts cs2.
Proof. unfold broadcasts. apply omap_app. Qed.

Lemma broadcasts_CallBroadcast ms : broadcasts (CallBroadcast <$> ms) = ms.
Proof.
  induction ms as [|m ms IH]; [done|].
  rewrite fmap_cons. unfold broadcasts in *. simpl. f_equal. exact IH.
Qed.

(** C4 (counterexample).  The agent sends one sample and closes its stream
    cleanly, and the transmission of the acknowledgment fails:
    [SendMetrics] does not return successfully, it returns that error. *)
Lemma SendMetrics_clean_close_returns_error :
  let st := two_subscribers (Some Zap) in
  let s := mkAgentStream (Some (transport_error "broken pipe")) 0 in
  let incoming := [(Recv_ok (sample 1), map_to_list (subscribers st));
                   (Recv_err io_EOF, [])] in
  (SendMetrics incoming s st).2 = Return (Some (transport_error "broken pipe")) ∧
  (SendMetrics incoming s st).2 ≠ Return None.
Proof. vm_compute. split; [reflexivity|discriminate]. Qed.

(** C4 (amended).  For every agent stream that delivers samples [s1..sn] and
    then a clean end-of-stream, [SendMetrics] calls [Broadcast] exactly [n]
    times, once per sample in receipt order, then calls [SendAndClose] exactly
    once and returns what that call returns: success when the acknowledgment
    is transmitted.  For every stream whose read fails with an error other
    than end-of-stream after [s1..sn], [SendMetrics] has called [Broadcast] on
    [s1..sn], returns that error and calls [SendAndClose] not at all.  What the
    stream would deliver afterwards ([rest]) is never read. *)
Theorem SendMetrics_protocol frames order rest s st :
  (let '(st', s', flow) :=
     SendMetrics (received frames ++ (Recv_err io_EOF, order) :: rest) s st in
   calls st' = calls st ++ (CallBroadcast <$> frames.*1) ∧
   broadcasts (calls st') = broadcasts (calls st) ++ frames.*1 ∧
   acks s' = S (acks s) ∧
   flow = Return (close_result s)) ∧
  (∀ err, err ≠ io_EOF →
   let '(st', s', flow) :=
     SendMetrics (received frames ++ (Recv_err err, order) :: rest) s st in
   calls st' = calls st ++ (CallBroadcast <$> frames.*1) ∧
   broadcasts (calls st') = broadcasts (calls st) ++ frames.*1 ∧
   acks s' = acks s ∧
   flow = Return (Some err)).
Proof.
  split; [|intros err Herr]; unfold SendMetrics.
  - destruct (SendMetrics_loop_received frames ((Recv_err io_EOF, order) :: rest)
                s (s_log started_entry st)) as (st1 & -> & Hcalls).
    simpl. rewrite Hcalls. simpl.
    by rewrite broadcasts_app, broadcasts_CallBroadcast.
  - destruct (SendMetrics_loop_received frames ((Recv_err err, order) :: rest)
                s (s_log started_entry st)) as (st1 & -> & Hcalls).
    simpl. destruct err as [|reason]; [done|]. simpl. rewrite Hcalls. simpl.
    by rewrite broadcasts_app, broadcasts_CallBroadcast.
Qed.

Lemma SendMetrics_protocol_witness :
  let st := two_subscribers (Some Zap) in
  let o := map_to_list (subscribers st) in
  let s := mkAgentStream None 0 in
  let '(st', s', flow) :=
    SendMetrics (received [(sample 1, o); (sample 2, o)]
                 ++ (Recv_err (transport_error "reset"), []) :: []) s st in
  calls st' = calls st ++ [CallBroadcast (sample 1); CallBroadcast (sample 2)] ∧
  acks s' = 0 ∧
  flow = Return (Some (transport_error "reset")).
Proof.
  intros st o s.
  destruct (SendMetrics_protocol [(sample 1, o); (sample 2, o)] [] [] s st)
    as [_ Hfail].
  specialize (Hfail (transport_error "reset")).
  destruct (SendMetrics _ s st) as [[st' s'] flow].
  destruct Hfail as (Hcalls & _ & Hacks & Hflow); [discriminate|].
  split; [exact Hcalls|]. split; [exact Hacks|exact Hflow].
Defined.



(** * SubscribeMetrics *)

Lemma make_chan_spec n st :
  let a := fresh (dom (heap st)) in
  make_chan n st = (a, set_heap (<[a := mkChan n []]> (heap st)) st) ∧
  heap st !! a = None.
Proof.
  split; [done|]. apply not_elem_of_dom, is_fresh.
Qed.

Lemma SubscribeMetrics_begin_spec id st :
  ∃ a st',
    SubscribeMetrics_begin id st = (a, st') ∧
    heap st !! a = None ∧
    heap st' = <[a := mkChan mailbox_capacity []]> (heap st) ∧
    subscribers st' = <[id := a]> (subscribers st) ∧
    logger st' = logger st ∧
    calls st' = calls st ++ [CallRegister id a].
Proof.
  destruct (make_chan_spec mailbox_capacity st) as [Hmk Hfresh].
  eexists _, _. unfold SubscribeMetrics_begin. rewrite Hmk.
  split; [done|]. split; [exact Hfresh|].
  rewrite Register_heap, Register_subscribers, Register_logger, Register_calls.
  done.
Qed.

Lemma try_recv_Some ch st msg st1 :
  try_recv ch st = Some (msg, st1) ↔
  ∃ n rest, heap st !! ch = Some (mkChan n (msg :: rest)) ∧
            st1 = set_heap (<[ch := mkChan n rest]> (heap st)) st.
Proof.
  unfold try_recv. destruct (heap st !! ch) as [[n [|m rest]]|]; split.
  - done.
  - by intros (? & ? & ? & ?).
  - intros [= -> <-]. eauto.
  - intros (n' & rest' & [= -> -> ->] & ->). done.
  - done.
  - by intros (? & ? & ? & ?).
Qed.

Lemma deferred_subscribers id st :
  subscribers (SubscribeMetrics_deferred id st) = delete id (subscribers st).
Proof. unfold SubscribeMetrics_deferred. by rewrite Unregister_subscribers. Qed.

Lemma deferred_heap id st : heap (SubscribeMetrics_deferred id st) = heap st.
Proof. unfold SubscribeMetrics_deferred. by rewrite Unregister_heap. Qed.

Lemma deferred_logger id st : logger (SubscribeMetrics_deferred id st) = logger st.
Proof. unfold SubscribeMetrics_deferred. by rewrite Unregister_logger. Qed.

Lemma deferred_calls id st :
  calls (SubscribeMetrics_deferred id st) = calls st ++ [CallUnregister id].
Proof. unfold SubscribeMetrics_deferred. by rewrite Unregister_calls. Qed.

Lemma SubscribeMetrics_iter_inv r l st st' l' :
  SubscribeMetrics_iter r l st = Some (st', l') →
  iteration l st l' st' r ∧ logger st' = logger st.
Proof.
  unfold SubscribeMetrics_iter. destruct r as [[err|]|].
  - destruct (try_recv (sub_ch l) st) as [[msg st1]|] eqn:Hrecv; [|done].
    apply try_recv_Some in Hrecv as (n & rest & Hc & ->).
    intros [= <- <-]. split.
    + eapply iter_send_failed; [exact Hc|..]; try done.
      * by rewrite deferred_heap.
      * by rewrite deferred_subscribers.
      * by rewrite deferred_calls.
    + by rewrite deferred_logger.
  - destruct (try_recv (sub_ch l) st) as [[msg st1]|] eqn:Hrecv; [|done].
    apply try_recv_Some in Hrecv as (n & rest & Hc & ->).
    intros [= <- <-]. split; [|done].
    eapply iter_sent; [exact Hc|..]; done.
  - intros [= <- <-]. split.
    + apply iter_canceled; try done.
      * by rewrite deferred_heap.
      * by rewrite deferred_subscribers.
      * by rewrite deferred_calls.
    + by rewrite deferred_logger.
Qed.

(** ** Counting calls *)

Lemma unregister_calls_snoc t cs c :
  unregister_calls t (cs ++ [c])
  = unregister_calls t cs + (if decide (c = CallUnregister t) then 1 else 0).
Proof.
  unfold unregister_calls. rewrite filter_app, length_app. f_equal.
  rewrite filter_cons, filter_nil. by case_decide.
Qed.

Lemma broadcasts_snoc cs c :
  broadcasts (cs ++ [c])
  = broadcasts cs ++ (if c is CallBroadcast m then [m] else []).
Proof. rewrite broadcasts_app. f_equal. by destruct c. Qed.

(** One [Broadcast] over a registry without aliases makes at most one send
    attempt on any channel. *)
Lemma Broadcast_heap_cases order msg st a c :
  range_of st order → no_alias st → heap st !! a = Some c →
  heap (Broadcast order msg st) !! a = Some c ∨
  (length (buf c) < cap c ∧
   heap (Broadcast order msg st) !! a = Some (mkChan (cap c) (buf c ++ [msg]))).
Proof.
  intros Hp Hinj Hc. unfold Broadcast.
  destruct (decide (a ∈ order.*2)) as [Hin|Hout].
  - rewrite range_heap_visited; [|by apply (range_of_NoDup_chans st)|done].
    simpl. rewrite Hc. simpl.
    destruct (decide (length (buf c) < cap c)).
    + right. by rewrite deliver_room.
    + left. by rewrite deliver_full.
  - left. by rewrite range_heap_other.
Qed.

Lemma NoDup_fmap_lookup {A B} (f : A → B) (l : list A) i j x y :
  NoDup (f <$> l) → l !! i = Some x → l !! j = Some y → f x = f y → i = j.
Proof.
  intros Hnd Hi Hj Heq.
  apply (NoDup_lookup (f <$> l) i j (f x)); [done| |].
  - by rewrite list_lookup_fmap, Hi.
  - by rewrite list_lookup_fmap, Hj, Heq.
Qed.

Lemma sys_inv_no_alias sys : sys_inv sys → no_alias (shared sys).
Proof.
  intros Hinv i j a Hi Hj.
  destruct (inv_registry _ Hinv i a Hi) as (k1 & l1 & Hk1 & <- & Ha1 & _).
  destruct (inv_registry _ Hinv j a Hj) as (k2 & l2 & Hk2 & <- & Ha2 & _).
  assert (k1 = k2) as ->.
  { apply (NoDup_fmap_lookup sub_ch (loops sys) k1 k2 l1 l2);
      [apply Hinv|done|done|congruence]. }
  congruence.
Qed.

(** The invariant reads the store, the registry and the call record only. *)
Lemma sys_inv_ext sys st' :
  heap st' = heap (shared sys) →
  subscribers st' = subscribers (shared sys) →
  calls st' = calls (shared sys) →
  sys_inv sys → sys_inv (mkSystem st' (loops sys)).
Proof.
  intros Hh Hs Hc [I1 I2 I3 I4 I5 I6].
  split; simpl; rewrite ?Hh, ?Hs, ?Hc; done.
Qed.

Lemma sys_inv_init lg : sys_inv (mkSystem (NewMetricsServer lg) []).
Proof.
  split; simpl.
  - apply NoDup_nil_2.
  - apply NoDup_nil_2.
  - intros t a Hta. by rewrite lookup_empty in Hta.
  - intros k l Hk. by rewrite lookup_nil in Hk.
  - done.
  - intros k l Hk. by rewrite lookup_nil in Hk.
Qed.

(** ** The invariant is kept by every step *)

Lemma sys_inv_Broadcast order msg sys :
  range_of (shared sys) order → sys_inv sys →
  sys_inv (mkSystem (Broadcast order msg (shared sys)) (loops sys)).
Proof.
  intros Hp Hinv. pose proof (sys_inv_no_alias _ Hinv) as Hinj.
  destruct Hinv as [I1 I2 I3 I4 I5 I6].
  split; simpl; rewrite ?Broadcast_subscribers, ?Broadcast_calls; try done.
  - intros k l Hk. specialize (I4 k l Hk).
    rewrite unregister_calls_snoc. case_decide; [done|].
    by rewrite Nat.add_0_r.
  - intros t Ht. rewrite unregister_calls_snoc. case_decide; [done|].
    rewrite Nat.add_0_r. by apply I5.
  - intros k l Hk. destruct (I6 k l Hk) as (c & Hc & Hcap & Hlen & Hsub).
    rewrite broadcasts_snoc.
    destruct (Broadcast_heap_cases order msg _ _ _ Hp Hinj Hc)
      as [Hsame|[Hroom Hsent]].
    + exists c. repeat split; try done. by apply sublist_inserts_r.
    + eexists. split; [exact Hsent|]. simpl. repeat split; try done.
      * rewrite length_app. simpl. lia.
      * rewrite app_assoc. by apply sublist_app.
Qed.

Lemma sys_inv_subscribe id sys :
  admissible (EvSubscribe id) sys → sys_inv sys →
  ∀ sys', sys_step (EvSubscribe id) sys = Some sys' → sys_inv sys'.
Proof.
  intros Hfresh Hinv sys'. simpl in Hfresh. unfold sys_step.
  destruct (SubscribeMetrics_begin_spec id (shared sys))
    as (a & st' & -> & Hnew & Hh & Hs & _ & Hc).
  intros [= <-].
  assert (id ∉ sub_id <$> loops sys) as Hid.
  { intros (l & -> & Hl)%list_elem_of_fmap. by apply (Hfresh l). }
  assert (a ∉ sub_ch <$> loops sys) as Ha.
  { intros (l & -> & Hl)%list_elem_of_fmap.
    apply list_elem_of_lookup in Hl as [k Hk].
    destruct (inv_mailbox _ Hinv k l Hk) as (c & Hc' & _). congruence. }
  destruct Hinv as [I1 I2 I3 I4 I5 I6].
  split; simpl; rewrite ?Hh, ?Hs, ?Hc.
  - rewrite fmap_app. simpl. apply NoDup_app. split; [done|]. split.
    + intros t Ht ->%list_elem_of_singleton. done.
    + apply NoDup_singleton.
  - rewrite fmap_app. simpl. apply NoDup_app. split; [done|]. split.
    + intros t Ht ->%list_elem_of_singleton. done.
    + apply NoDup_singleton.
  - intros t b. rewrite lookup_insert. case_decide as Ht.
    + subst t. intros [= <-]. exists (length (loops sys)), (mkSubscription id a [] Continue).
      split; [|done]. by rewrite lookup_app_r, Nat.sub_diag.
    + intros Hb. destruct (I3 t b Hb) as (k & l & Hk & Hl).
      exists k, l. split; [|done]. by apply lookup_app_l_Some.
  - intros k l Hk. apply lookup_app_Some in Hk as [Hk|[_ Hk]].
    + specialize (I4 k l Hk).
      assert (sub_id l ≠ id) as Hne.
      { intros <-. apply Hid. apply list_elem_of_fmap. exists l.
        split; [done|]. by apply list_elem_of_lookup_2 in Hk. }
      rewrite lookup_insert_ne by done.
      rewrite unregister_calls_snoc. case_decide; [done|].
      by rewrite Nat.add_0_r.
    + destruct (k - length (loops sys)) as [|n]; [|by destruct n].
      simpl in Hk. injection Hk as <-. simpl.
      rewrite lookup_insert_eq. split; [done|].
      rewrite unregister_calls_snoc. case_decide; [done|].
      rewrite Nat.add_0_r. by apply I5.
  - intros t Ht. rewrite fmap_app, not_elem_of_app in Ht.
    rewrite unregister_calls_snoc. case_decide; [done|].
    rewrite Nat.add_0_r. apply I5. tauto.
  - intros k l Hk. rewrite broadcasts_snoc, app_nil_r.
    apply lookup_app_Some in Hk as [Hk|[_ Hk]].
    + destruct (I6 k l Hk) as (c & Hc' & Hrest). exists c.
      split; [|done]. rewrite lookup_insert_ne; [done|]. congruence.
    + destruct (k - length (loops sys)) as [|n]; [|by destruct n].
      simpl in Hk. injection Hk as <-. simpl.
      exists (mkChan mailbox_capacity []). rewrite lookup_insert_eq.
      repeat split; simpl; [lia|]. apply sublist_nil_l.
Qed.

(** One loop takes a step: its channel may lose elements, and it either goes
    on, or unregisters and returns. *)
Lemma sys_inv_update k l l1 st1 sys :
  sys_inv sys → loops sys !! k = Some l → sub_flow l = Continue →
  sub_id l1 = sub_id l → sub_ch l1 = sub_ch l →
  (∀ a, a ≠ sub_ch l → heap st1 !! a = heap (shared sys) !! a) →
  (∀ c, heap (shared sys) !! sub_ch l = Some c →
     ∃ c1, heap st1 !! sub_ch l = Some c1 ∧ cap c1 = cap c ∧
           length (buf c1) ≤ length (buf c) ∧
           sub_sent l1 ++ buf c1 `sublist_of` sub_sent l ++ buf c) →
  (sub_flow l1 = Continue ∧
   subscribers st1 = subscribers (shared sys) ∧
   calls st1 = calls (shared sys)
   ∨
   (∃ e, sub_flow l1 = Return e) ∧
   subscribers st1 = delete (sub_id l) (subscribers (shared sys)) ∧
   calls st1 = calls (shared sys) ++ [CallUnregister (sub_id l)]) →
  sys_inv (mkSystem st1 (<[k := l1]> (loops sys))).
Proof.
  intros Hinv Hk Hflow Hid Hch Hother Hown Hcase.
  pose proof (lookup_lt_Some _ _ _ Hk) as Hlt.
  assert (sub_id <$> <[k := l1]> (loops sys) = sub_id <$> loops sys) as Hids.
  { rewrite list_fmap_insert, Hid. apply list_insert_id.
    by rewrite list_lookup_fmap, Hk. }
  assert (sub_ch <$> <[k := l1]> (loops sys) = sub_ch <$> loops sys) as Hchs.
  { rewrite list_fmap_insert, Hch. apply list_insert_id.
    by rewrite list_lookup_fmap, Hk. }
  assert (∀ j x, j ≠ k → loops sys !! j = Some x →
                 sub_id x ≠ sub_id l ∧ sub_ch x ≠ sub_ch l) as Hdiff.
  { intros j x Hj Hx. split; intros Heq; apply Hj.
    - apply (NoDup_fmap_lookup sub_id (loops sys) j k x l); [apply Hinv|done..].
    - apply (NoDup_fmap_lookup sub_ch (loops sys) j k x l); [apply Hinv|done..]. }
  assert (sub_id l ∈ sub_id <$> loops sys) as Hmem.
  { apply list_elem_of_fmap. exists l. split; [done|].
    by apply list_elem_of_lookup_2 in Hk. }
  destruct Hinv as [I1 I2 I3 I4 I5 I6].
  split; simpl; rewrite ?Hids, ?Hchs; try done.
  - (* registry *)
    intros t a Hta.
    assert (subscribers (shared sys) !! t = Some a ∧
            (sub_flow l1 = Continue ∨ t ≠ sub_id l)) as [Hold Hwho].
    { destruct Hcase as [(Hf & Hs & _)|(_ & Hs & _)]; rewrite Hs in Hta.
      - by split; [|left].
      - apply lookup_delete_Some in Hta as [Hne Hta]. split; [done|].
        right. congruence. }
    destruct (I3 t a Hold) as (j & x & Hj & Hxid & Hxch & Hxf).
    destruct (decide (j = k)) as [->|Hjk].
    + assert (x = l) as -> by congruence.
      exists k, l1. rewrite list_lookup_insert_eq by done.
      destruct Hwho as [Hf|Hne]; [|done]. repeat split; congruence.
    + exists j, x. by rewrite list_lookup_insert_ne.
  - (* loops *)
    intros j x Hj. apply list_lookup_insert_Some in Hj
      as [(<- & <- & _)|(Hjk & Hj)].
    + pose proof (I4 k l Hk) as Hl. rewrite Hflow in Hl. destruct Hl as [Hreg Hcnt].
      rewrite Hid, Hch.
      destruct Hcase as [(-> & -> & ->)|([e ->] & -> & ->)]; [done|].
      rewrite lookup_delete_eq, unregister_calls_snoc, Hcnt.
      by rewrite decide_True.
    + destruct (Hdiff j x) as [Hxid _]; [done..|].
      specialize (I4 j x Hj).
      destruct Hcase as [(_ & -> & ->)|(_ & -> & ->)]; [done|].
      rewrite lookup_delete_ne by done. rewrite unregister_calls_snoc.
      rewrite decide_False by congruence. by rewrite Nat.add_0_r.
  - (* unused ids *)
    intros t Ht. specialize (I5 t Ht).
    destruct Hcase as [(_ & _ & ->)|(_ & _ & ->)]; [done|].
    rewrite unregister_calls_snoc. rewrite decide_False; [lia|].
    intros [= Heq]. apply Ht. by rewrite <- Heq.
  - (* mailboxes *)
    intros j x Hj.
    assert (broadcasts (calls st1) = broadcasts (calls (shared sys))) as ->.
    { destruct Hcase as [(_ & _ & ->)|(_ & _ & ->)]; [done|].
      by rewrite broadcasts_snoc, app_nil_r. }
    apply list_lookup_insert_Some in Hj as [(<- & <- & _)|(Hjk & Hj)].
    + destruct (I6 k l Hk) as (c & Hc & Hcap & Hlen & Hsub).
      destruct (Hown c Hc) as (c1 & Hc1 & Hcap1 & Hlen1 & Hsub1).
      exists c1. rewrite Hch. repeat split; [done|congruence|lia|].
      by etrans.
    + destruct (Hdiff j x) as [_ Hxch]; [done..|].
      destruct (I6 j x Hj) as (c & Hc & Hrest).
      exists c. by rewrite Hother.
Qed.

Lemma sys_inv_select k r sys sys' :
  sys_inv sys → sys_step (EvSelect k r) sys = Some sys' → sys_inv sys'.
Proof.
  intros Hinv. unfold sys_step.
  destruct (loops sys !! k) as [l|] eqn:Hk; [|done].
  destruct (sub_flow l) eqn:Hflow; [|done].
  destruct (SubscribeMetrics_iter r l (shared sys)) as [[st1 l1]|] eqn:Hiter;
    [|done].
  intros [= <-].
  apply SubscribeMetrics_iter_inv in Hiter as [Hiter _].
  destruct Hiter as [n msg rest Hc Hh Hs Hcs ->
                    |err n msg rest Hc Hh Hs Hcs ->
                    |Hh Hs Hcs ->].
  - apply (sys_inv_update k l); try done.
    + intros a Ha. rewrite Hh. by rewrite lookup_insert_ne.
    + intros c Hc'. rewrite Hc in Hc'. injection Hc' as <-.
      eexists. rewrite Hh, lookup_insert_eq. split; [done|]. simpl.
      repeat split; [lia|]. by rewrite <- app_assoc.
    + by left.
  - apply (sys_inv_update k l); try done.
    + intros a Ha. rewrite Hh. by rewrite lookup_insert_ne.
    + intros c Hc'. rewrite Hc in Hc'. injection Hc' as <-.
      eexists. rewrite Hh, lookup_insert_eq. split; [done|]. simpl.
      repeat split; [lia|]. apply sublist_app; [done|]. by apply sublist_cons.
    + right. eauto.
  - apply (sys_inv_update k l); try done.
    + intros a Ha. by rewrite Hh.
    + intros c Hc. exists c. by rewrite Hh.
    + right. eauto.
Qed.

Lemma sys_inv_step ev sys sys' :
  sys_inv sys → admissible ev sys → sys_step ev sys = Some sys' → sys_inv sys'.
Proof.
  intros Hinv Hadm Hstep. destruct ev as [id|k r| |r order s].
  - by apply (sys_inv_subscribe id sys).
  - by apply (sys_inv_select k r sys).
  - injection Hstep as <-. by apply sys_inv_ext.
  - injection Hstep as <-. destruct r as [req|[|reason]]; simpl.
    + apply (sys_inv_Broadcast order req
               (mkSystem (s_log (batch_entry req) (shared sys)) (loops sys)));
        [exact Hadm|]. by apply sys_inv_ext.
    + by apply sys_inv_ext.
    + by apply sys_inv_ext.
Qed.

Lemma reachable_inv lg sys : reachable lg sys → sys_inv sys.
Proof.
  induction 1 as [|sys ev sys' _ IH Hadm Hstep].
  - apply sys_inv_init.
  - by apply (sys_inv_step ev sys).
Qed.

(** ** Order in lists *)






Lemma after_reachable lg evs sys :
  reachable lg sys → admissible_all evs sys → reachable lg (after evs sys).
Proof.
  revert sys. induction evs as [|ev evs IH]; intros sys Hreach Hadm; [done|].
  destruct Hadm as (Hadm & [sys' Hstep] & Hrest).
  simpl. apply IH; [|done]. rewrite Hstep. simpl.
  by apply (reach_step lg sys ev).
Qed.

Lemma short_life_reachable :
  reachable Zap (after short_life (mkSystem (NewMetricsServer Zap) [])).
Proof.
  apply after_reachable; [apply reach_init|].
  unfold short_life.
  repeat (split; [try done|split; [by vm_compute; eexists|]]).
  - intros l Hl. by apply elem_of_nil in Hl.
  - unfold range_of. vm_compute. reflexivity.
  - unfold range_of. vm_compute. reflexivity.
  - done.
Qed.

Lemma steady_life_reachable :
  reachable Zap (after steady_life (mkSystem (NewMetricsServer Zap) [])).
Proof.
  apply after_reachable; [apply reach_init|].
  unfold steady_life.
  repeat (split; [try done|split; [by vm_compute; eexists|]]).
  - intros l Hl. by apply elem_of_nil in Hl.
  - unfold range_of. vm_compute. reflexivity.
  - unfold range_of. vm_compute. reflexivity.
  - done.
Qed.

(** * The subscription loop in the running server *)



(** C3.  At every moment of the running server, a subscription loop that has
    returned, by whichever path, is absent from the registry and has called
    [Unregister] for its id exactly once, while a loop that is still streaming
    is registered with its channel and has not called it.  Step by step: every
    iteration that returns ends with the one deferred [Unregister] call, and
    every iteration that goes on makes none. *)
Theorem subscription_leak_freedom lg sys k l :
  reachable lg sys → loops sys !! k = Some l →
  match sub_flow l with
  | Continue =>
      subscribers (shared sys) !! sub_id l = Some (sub_ch l) ∧
      unregister_calls (sub_id l) (calls (shared sys)) = 0
  | Return _ =>
      subscribers (shared sys) !! sub_id l = None ∧
      unregister_calls (sub_id l) (calls (shared sys)) = 1
  end ∧
  (∀ r st st' l',
     SubscribeMetrics_iter r l st = Some (st', l') →
     match sub_flow l' with
     | Continue =>
         subscribers st' = subscribers st ∧ calls st' = calls st
     | Return _ =>
         subscribers st' !! sub_id l = None ∧
         calls st' = calls st ++ [CallUnregister (sub_id l)]
     end).
Proof.
  intros Hreach Hk. apply reachable_inv in Hreach.
  split; [exact (inv_loop _ Hreach k l Hk)|].
  intros r st st' l' [Hiter _]%SubscribeMetrics_iter_inv.
  destruct Hiter as [n msg rest Hc Hh Hs Hcs ->
                    |err n msg rest Hc Hh Hs Hcs ->
                    |Hh Hs Hcs ->]; simpl.
  - done.
  - rewrite Hs, lookup_delete_eq. done.
  - rewrite Hs, lookup_delete_eq. done.
Qed.

Lemma subscription_leak_freedom_witness :
  let sys := after short_life (mkSystem (NewMetricsServer Zap) []) in
  subscribers (shared sys) !! "a" = None ∧
  unregister_calls "a" (calls (shared sys)) = 1.
Proof.
  intros sys.
  destruct (subscription_leak_freedom Zap sys 0
              (mkSubscription "a" 0 [sample 1]
                 (Return (Some (transport_error "peer gone")))))
    as [Hgone _].
  - apply short_life_reachable.
  - vm_compute. reflexivity.
  - exact Hgone.
Defined.

(** C8.  One iteration of the loop, from any state.  If the channel holds a
    sample and sending it fails with [err], the loop writes the error, runs
    the deferred [Unregister] of its id and returns [err].  If cancellation of
    the stream's context is what the [select] takes, the loop runs the
    deferred [Unregister] of its id and returns nil, without touching its
    channel or sending anything.  If the send succeeds, the loop goes on, still
    registered. *)
Theorem SubscribeMetrics_exit_outcome l st :
  (∀ err n msg rest,
     heap st !! sub_ch l = Some (mkChan n (msg :: rest)) →
     ∃ st' l',
       SubscribeMetrics_iter (ReadyMsg (Some err)) l st = Some (st', l') ∧
       sub_flow l' = Return (Some err) ∧
       subscribers st' !! sub_id l = None ∧
       calls st' = calls st ++ [CallUnregister (sub_id l)]) ∧
  (∃ st' l',
     SubscribeMetrics_iter ReadyDone l st = Some (st', l') ∧
     sub_flow l' = Return None ∧
     subscribers st' !! sub_id l = None ∧
     calls st' = calls st ++ [CallUnregister (sub_id l)] ∧
     heap st' = heap st ∧ sub_sent l' = sub_sent l) ∧
  (∀ n msg rest,
     heap st !! sub_ch l = Some (mkChan n (msg :: rest)) →
     ∃ st' l',
       SubscribeMetrics_iter (ReadyMsg None) l st = Some (st', l') ∧
       sub_flow l' = Continue ∧
       sub_sent l' = sub_sent l ++ [msg] ∧
       subscribers st' = subscribers st ∧
       calls st' = calls st).
Proof.
  split; [|split].
  - intros err n msg rest Hc. unfold SubscribeMetrics_iter, try_recv.
    rewrite Hc. eexists _, _. split; [done|]. simpl.
    rewrite deferred_subscribers, deferred_calls, lookup_delete_eq. done.
  - unfold SubscribeMetrics_iter. eexists _, _. split; [done|]. simpl.
    rewrite deferred_subscribers, deferred_calls, deferred_heap, lookup_delete_eq.
    done.
  - intros n msg rest Hc. unfold SubscribeMetrics_iter, try_recv.
    rewrite Hc. eexists _, _. split; [done|]. done.
Qed.

Lemma SubscribeMetrics_exit_outcome_witness :
  let st := two_subscribers (Some Zap) in
  let l := mkSubscription "slow" 0 [] Continue in
  ∃ st' l',
    SubscribeMetrics_iter (ReadyMsg (Some (transport_error "peer gone"))) l st
    = Some (st', l') ∧
    sub_flow l' = Return (Some (transport_error "peer gone")) ∧
    subscribers st' !! "slow" = None ∧
    calls st' = calls st ++ [CallUnregister "slow"].
Proof.
  intros st l.
  destruct (SubscribeMetrics_exit_outcome l st) as [Hfail _].
  apply (Hfail (transport_error "peer gone") 1 (sample 0) []).
  vm_compute. reflexivity.
Defined.

(** * Further properties of the broadcaster *)

Lemma Unregister_range_of order id st :
  range_of (Unregister id st) order ↔
  order ≡ₚ map_to_list (delete id (subscribers st)).
Proof. unfold range_of. by rewrite Unregister_subscribers. Qed.

(** X1.  [Register] of an id that is already present replaces its channel
    without a word: the id is bound to the new channel, the registry keeps its
    size and all its other entries, and the replaced channel, when no other id
    is bound to it, receives nothing from a later [Broadcast]. *)
Theorem Register_rebinds id ch old st :
  subscribers st !! id = Some old →
  let st' := Register id ch st in
  subscribers st' !! id = Some ch ∧
  size (subscribers st') = size (subscribers st) ∧
  (∀ j, j ≠ id → subscribers st' !! j = subscribers st !! j) ∧
  heap st' = heap st ∧
  (∀ order msg,
     old ≠ ch →
     (∀ j, j ≠ id → subscribers st !! j ≠ Some old) →
     range_of st' order →
     heap (Broadcast order msg st') !! old = heap st !! old).
Proof.
  intros Hold st'. subst st'.
  rewrite Register_subscribers, Register_heap.
  split; [apply lookup_insert_eq|]. split; [|split; [|split; [done|]]].
  - apply map_size_insert_Some. eauto.
  - intros j Hj. by rewrite lookup_insert_ne.
  - intros order msg Hne Hother Hp.
    rewrite Broadcast_heap_unregistered; [by rewrite Register_heap|done|].
    intros j. rewrite Register_subscribers, lookup_insert.
    case_decide; [congruence|]. by apply Hother.
Qed.

Lemma Register_rebinds_witness :
  let st := Register "slow" 1 (two_subscribers (Some Zap)) in
  subscribers st !! "slow" = Some 1 ∧
  size (subscribers st) = 2.
Proof.
  intros st.
  destruct (Register_rebinds "slow" 1 0 (two_subscribers (Some Zap)))
    as (Hnew & Hsize & _).
  - vm_compute. reflexivity.
  - split; [exact Hnew|]. subst st. rewrite Hsize. vm_compute. reflexivity.
Defined.

(** X2.  [Unregister] undoes [Register]: after both, the registry is the
    original one without the id, so the original one when the id was not
    registered before; the channel store is not touched by either.  Calls for
    different ids commute. *)
Theorem Register_Unregister_roundtrip id ch st :
  subscribers (Unregister id (Register id ch st)) = delete id (subscribers st) ∧
  (subscribers st !! id = None →
     subscribers (Unregister id (Register id ch st)) = subscribers st) ∧
  heap (Unregister id (Register id ch st)) = heap st ∧
  (∀ j, j ≠ id →
     subscribers (Unregister j (Register id ch st))
     = subscribers (Register id ch (Unregister j st))).
Proof.
  rewrite !Unregister_subscribers, !Register_subscribers, Unregister_heap,
    Register_heap.
  split; [apply delete_insert_eq|]. split; [|split; [done|]].
  - intros Habs. by rewrite delete_insert_eq, delete_id.
  - intros j Hj.
    rewrite !Unregister_subscribers, !Register_subscribers, Unregister_subscribers.
    by apply delete_insert_ne.
Qed.

Lemma Register_Unregister_roundtrip_witness :
  subscribers (Unregister "new" (Register "new" 7 (two_subscribers (Some Zap))))
  = subscribers (two_subscribers (Some Zap)) ∧
  subscribers (Unregister "slow" (Register "new" 7 (two_subscribers (Some Zap))))
  = subscribers (Register "new" 7 (Unregister "slow" (two_subscribers (Some Zap)))).
Proof.
  destruct (Register_Unregister_roundtrip "new" 7 (two_subscribers (Some Zap)))
    as (_ & Habs & _ & Hcomm).
  split.
  - apply Habs. vm_compute. reflexivity.
  - apply Hcomm. discriminate.
Defined.

Lemma Unregister_no_alias id st : no_alias st → no_alias (Unregister id st).
Proof.
  intros Hinj i j a. rewrite Unregister_subscribers.
  intros [_ Hi]%lookup_delete_Some [_ Hj]%lookup_delete_Some. by apply (Hinj i j a).
Qed.

(** X3.  After [Unregister(id)], a [Broadcast] no longer reaches the channel
    that was registered under [id]: the channel is left as it was, and no
    delivery or drop entry is written for [id]. *)
Theorem Unregister_stops_delivery order msg id a st :
  no_alias st → subscribers st !! id = Some a →
  range_of (Unregister id st) order →
  let st1 := Unregister id st in
  heap (Broadcast order msg st1) !! a = heap st !! a ∧
  drop_signals id (log (Broadcast order msg st1)) = drop_signals id (log st1) ∧
  delivery_signals id (log (Broadcast order msg st1))
  = delivery_signals id (log st1).
Proof.
  intros Hinj Hid Hp st1. subst st1.
  assert (id ∉ order.*1) as Hout.
  { intros ([i b] & -> & Hin)%list_elem_of_fmap.
    apply (range_of_elem _ _ _ _ Hp) in Hin.
    rewrite Unregister_subscribers in Hin. simpl in Hin.
    by rewrite lookup_delete_eq in Hin. }
  split; [|split].
  - rewrite Broadcast_heap_unregistered; [by rewrite Unregister_heap|done|].
    intros j. rewrite Unregister_subscribers.
    intros [Hne Hj]%lookup_delete_Some. apply Hne. by apply (Hinj id j a).
  - rewrite Broadcast_log; [|done|by apply Unregister_no_alias].
    rewrite drop_signals_app. unfold logged.
    destruct (logger _); [|done]. by rewrite drop_signals_absent.
  - rewrite Broadcast_log; [|done|by apply Unregister_no_alias].
    rewrite delivery_signals_app. unfold logged.
    destruct (logger _); [|done]. by rewrite delivery_signals_absent.
Qed.

Lemma Unregister_stops_delivery_witness :
  let st := two_subscribers (Some Zap) in
  let st1 := Unregister "fast" st in
  heap (Broadcast (map_to_list (subscribers st1)) (sample 1) st1) !! 1
  = Some (mkChan 2 [sample 0]).
Proof.
  intros st st1.
  destruct (Unregister_stops_delivery (map_to_list (subscribers st1))
              (sample 1) "fast" 1 st) as [Hheap _].
  - apply no_alias_NoDup, (bool_decide_unpack _). vm_compute. reflexivity.
  - vm_compute. reflexivity.
  - apply range_of_refl.
  - subst st1. rewrite Hheap. vm_compute. reflexivity.
Defined.

(** X4.  The order in which [range] visits the registry does not matter: for
    a registry without shared channels, any two visiting orders leave the same
    channel store, the same registry and call record, and the same log entries
    up to their order. *)
Theorem Broadcast_order_irrelevant o1 o2 msg st :
  no_alias st → range_of st o1 → range_of st o2 →
  heap (Broadcast o1 msg st) = heap (Broadcast o2 msg st) ∧
  subscribers (Broadcast o1 msg st) = subscribers (Broadcast o2 msg st) ∧
  calls (Broadcast o1 msg st) = calls (Broadcast o2 msg st) ∧
  log (Broadcast o1 msg st) ≡ₚ log (Broadcast o2 msg st).
Proof.
  intros Hinj H1 H2. split; [|split; [|split]].
  - apply map_eq. intros a. unfold Broadcast.
    destruct (decide (a ∈ o1.*2)) as [Hin|Hout].
    + assert (a ∈ o2.*2) by by apply (range_of_chan st), (range_of_chan st o1).
      rewrite !range_heap_visited; try done;
        by apply (range_of_NoDup_chans st).
    + assert (a ∉ o2.*2).
      { intros Hin. apply Hout. by apply (range_of_chan st), (range_of_chan st o2). }
      by rewrite !range_heap_other.
  - by rewrite !Broadcast_subscribers.
  - by rewrite !Broadcast_calls.
  - rewrite !Broadcast_log by done. apply Permutation_app; [done|].
    unfold logged. destruct (logger st); [|done].
    apply fmap_Permutation. unfold range_of in H1, H2. by rewrite H1, H2.
Qed.

Lemma Broadcast_order_irrelevant_witness :
  let st := two_subscribers (Some Zap) in
  heap (Broadcast [("fast", 1); ("slow", 0)] (sample 1) st)
  = heap (Broadcast [("slow", 0); ("fast", 1)] (sample 1) st).
Proof.
  intros st.
  apply (Broadcast_order_irrelevant [("fast", 1); ("slow", 0)]
           [("slow", 0); ("fast", 1)] (sample 1) st).
  - apply no_alias_NoDup, (bool_decide_unpack _). vm_compute. reflexivity.
  - unfold range_of. vm_compute. apply Permutation_swap.
  - unfold range_of. vm_compute. reflexivity.
Defined.

Lemma deliver_appends msg c :
  ∃ n, buf (deliver msg c) = buf c ++ replicate n msg ∧ n ≤ 1 ∧
       (length (buf c) ≤ cap c → length (buf (deliver msg c)) ≤ cap c).
Proof.
  unfold deliver, try_send. case_decide; simpl.
  - exists 1. rewrite length_app. simpl. repeat split; try done; lia.
  - exists 0. simpl. rewrite app_nil_r. repeat split; try done; lia.
Qed.

Lemma range_appends msg order st a c' :
  heap (foldl (Broadcast_visit msg) st order) !! a = Some c' →
  ∃ c n, heap st !! a = Some c ∧ cap c' = cap c ∧
         buf c' = buf c ++ replicate n msg ∧ n ≤ length order ∧
         (length (buf c) ≤ cap c → length (buf c') ≤ cap c').
Proof.
  revert st. induction order as [|e order IH]; intros st Hc'; simpl in *.
  - exists c', 0. simpl. rewrite app_nil_r. repeat split; [done..|lia|done].
  - destruct (IH _ Hc') as (c1 & n & Hc1 & Hcap & Hbuf & Hn & Hlen).
    rewrite visit_heap, lookup_alter in Hc1. case_decide as Heq.
    + destruct (heap st !! e.2) as [c|] eqn:Hc; [|done].
      simpl in Hc1. injection Hc1 as <-. subst a.
      destruct (deliver_appends msg c) as (k & Hk & Hk1 & Hklen).
      exists c, (k + n). rewrite deliver_cap in Hcap, Hlen.
      rewrite replicate_add, app_assoc, <- Hk.
      repeat split; [done..|lia|]. intros Hle. by apply Hlen, Hklen.
    + exists c1, n. repeat split; [done..|lia|done].
Qed.

(** X5.  [Broadcast] only ever appends: whatever the visiting order, even one
    that is no permutation of the registry or a registry with shared channels,
    every channel keeps its capacity and what was queued, in order, followed by
    copies of the sample, and a channel within its capacity stays within
    it. *)
Theorem Broadcast_appends_within_capacity order msg st a c' :
  heap (Broadcast order msg st) !! a = Some c' →
  ∃ c n, heap st !! a = Some c ∧ cap c' = cap c ∧
         buf c' = buf c ++ replicate n msg ∧
         (length (buf c) ≤ cap c → length (buf c') ≤ cap c').
Proof.
  intros Hc'. unfold Broadcast in Hc'.
  destruct (range_appends _ _ _ _ _ Hc') as (c & n & Hc & Hcap & Hbuf & _ & Hlen).
  by exists c, n.
Qed.

Lemma Broadcast_appends_within_capacity_witness :
  ∃ c n, heap (two_subscribers (Some Zap)) !! 0 = Some c ∧
         cap (mkChan 1 [sample 0]) = cap c ∧
         buf (mkChan 1 [sample 0]) = buf c ++ replicate n (sample 1) ∧
         (length (buf c) ≤ cap c → length (buf (mkChan 1 [sample 0])) ≤ cap (mkChan 1 [sample 0])).
Proof.
  apply (Broadcast_appends_within_capacity
           [("slow", 0); ("slow", 0); ("fast", 1)] (sample 1)
           (two_subscribers (Some Zap)) 0).
  vm_compute. reflexivity.
Defined.

Lemma range_log_length msg order st :
  length (log (foldl (Broadcast_visit msg) st order))
  = length (log st) + (if logger st is Some _ then length order else 0).
Proof.
  revert st. induction order as [|e order IH]; intros st; simpl.
  - destruct (logger st); lia.
  - rewrite IH, visit_log, visit_logger, length_app. unfold logged.
    destruct (logger st); simpl; lia.
Qed.

(** X6.  One [Broadcast] writes exactly one log entry per registered
    subscriber when the broadcaster has a logger, whether the sample was
    delivered or dropped, and none when it has not. *)
Theorem Broadcast_one_entry_per_subscriber order msg st :
  range_of st order →
  length (log (Broadcast order msg st))
  = length (log st)
    + (if logger st is Some _ then size (subscribers st) else 0).
Proof.
  intros Hp. unfold Broadcast. rewrite range_log_length. simpl.
  destruct (logger st); [|done]. f_equal.
  unfold range_of in Hp. rewrite Hp. apply length_map_to_list.
Qed.

Lemma Broadcast_one_entry_per_subscriber_witness :
  let st := two_subscribers (Some Zap) in
  length (log (Broadcast [("fast", 1); ("slow", 0)] (sample 1) st))
  = length (log st) + 2.
Proof.
  intros st.
  rewrite (Broadcast_one_entry_per_subscriber [("fast", 1); ("slow", 0)]
             (sample 1) st).
  - vm_compute. reflexivity.
  - unfold range_of. vm_compute. apply Permutation_swap.
Defined.

(** * Further properties of SendMetrics *)

Lemma Broadcast_dom order msg st :
  dom (heap (Broadcast order msg st)) = dom (heap st).
Proof.
  apply (range_heap_shape msg order (record_call (CallBroadcast msg) st)).
Qed.

Lemma SendMetrics_loop_spec incoming s st :
  let '(st', s', flow) := SendMetrics_loop incoming s st in
  subscribers st' = subscribers st ∧
  dom (heap st') = dom (heap st) ∧
  logger st' = logger st ∧
  (∃ ms, calls st' = calls st ++ (CallBroadcast <$> ms) ∧
         length ms ≤ length incoming) ∧
  close_result s' = close_result s ∧
  acks s' ≤ S (acks s) ∧
  (flow = Continue → acks s' = acks s) ∧
  (acks s' = S (acks s) → flow = Return (close_result s)).
Proof.
  revert s st. induction incoming as [|[r order] incoming IH]; intros s st.
  - simpl. split; [done|]. split; [done|]. split; [done|]. split.
    { exists []. by rewrite app_nil_r. }
    split; [done|]. split; [lia|]. split; [done|]. lia.
  - simpl. destruct r as [req|[|reason]]; simpl.
    + specialize (IH s (Broadcast order req (s_log (batch_entry req) st))).
      destruct (SendMetrics_loop incoming s _) as [[st' s'] flow].
      destruct IH as (Hs & Hd & Hl & (ms & Hc & Hlen) & Hrest).
      rewrite Broadcast_subscribers in Hs. rewrite Broadcast_logger in Hl.
      rewrite Broadcast_calls in Hc. rewrite Broadcast_dom in Hd.
      split; [done|]. split; [done|]. split; [done|].
      split; [|done]. exists (req :: ms). simpl. split; [|lia].
      by rewrite Hc, <- app_assoc.
    + split; [done|]. split; [done|]. split; [done|]. split.
      { exists []. simpl. split; [by rewrite app_nil_r|lia]. }
      split; [done|]. split; [lia|]. split; [done|]. done.
    + split; [done|]. split; [done|]. split; [done|]. split.
      { exists []. simpl. split; [by rewrite app_nil_r|lia]. }
      split; [done|]. split; [lia|]. split; [done|]. lia.
Qed.

(** X7.  Whatever the agent's stream delivers, [SendMetrics] never changes the
    registry or the set of channels, calls nothing on the broadcaster but
    [Broadcast], and acknowledges at most once: not at all while it is still
    receiving, and if it did, it returned what the acknowledgment returned. *)
Theorem SendMetrics_frame incoming s st :
  let '(st', s', flow) := SendMetrics incoming s st in
  subscribers st' = subscribers st ∧
  dom (heap st') = dom (heap st) ∧
  (∃ ms, calls st' = calls st ++ (CallBroadcast <$> ms)) ∧
  acks s' ≤ S (acks s) ∧
  (flow = Continue → acks s' = acks s) ∧
  (acks s' = S (acks s) → flow = Return (close_result s)).
Proof.
  unfold SendMetrics.
  pose proof (SendMetrics_loop_spec incoming s (s_log started_entry st)) as H.
  destruct (SendMetrics_loop incoming s _) as [[st' s'] flow].
  destruct H as (Hs & Hd & _ & (ms & Hc & _) & _ & Hle & Hcont & Hack).
  repeat split; try done. by exists ms.
Qed.

Lemma SendMetrics_frame_witness :
  let st := two_subscribers (Some Zap) in
  let s := mkAgentStream None 0 in
  acks (SendMetrics [(Recv_ok (sample 1), map_to_list (subscribers st));
                     (Recv_ok (sample 2), map_to_list (subscribers st))] s st).1.2
  = 0.
Proof.
  intros st s.
  pose proof (SendMetrics_frame
                [(Recv_ok (sample 1), map_to_list (subscribers st));
                 (Recv_ok (sample 2), map_to_list (subscribers st))] s st) as H.
  destruct (SendMetrics _ s st) as [[st' s'] flow] eqn:Hrun.
  destruct H as (_ & _ & _ & _ & Hcont & _). simpl. apply Hcont.
  assert (flow = (SendMetrics
                [(Recv_ok (sample 1), map_to_list (subscribers st));
                 (Recv_ok (sample 2), map_to_list (subscribers st))] s st).2)
    as -> by by rewrite Hrun.
  vm_compute. reflexivity.
Defined.




Lemma range_heap_ext msg order st1 st2 :
  heap st1 = heap st2 →
  heap (foldl (Broadcast_visit msg) st1 order)
  = heap (foldl (Broadcast_visit msg) st2 order).
Proof.
  revert st1 st2. induction order as [|e order IH]; intros st1 st2 Heq; [done|].
  simpl. apply IH. by rewrite !visit_heap, Heq.
Qed.

Lemma Broadcast_heap_ext order msg st1 st2 :
  heap st1 = heap st2 →
  heap (Broadcast order msg st1) = heap (Broadcast order msg st2).
Proof. intros Heq. unfold Broadcast. by apply range_heap_ext. Qed.

Lemma Broadcast_all_snoc frames f st :
  Broadcast_all (frames ++ [f]) st = Broadcast f.2 f.1 (Broadcast_all frames st).
Proof. unfold Broadcast_all. by rewrite foldl_app. Qed.

Lemma SendMetrics_loop_forwards frames tail s st0 st :
  heap st0 = heap st → subscribers st0 = subscribers st → calls st0 = calls st →
  ∃ st1,
    SendMetrics_loop (received frames ++ tail) s st0 = SendMetrics_loop tail s st1 ∧
    heap st1 = heap (Broadcast_all frames st) ∧
    subscribers st1 = subscribers (Broadcast_all frames st) ∧
    calls st1 = calls (Broadcast_all frames st).
Proof.
  revert st0 st. induction frames as [|[req order] frames IH]; intros st0 st Hh Hs Hc.
  - by exists st0.
  - simpl. apply IH.
    + by apply Broadcast_heap_ext.
    + by rewrite !Broadcast_subscribers.
    + rewrite !Broadcast_calls. simpl. by rewrite Hc.
Qed.

(** X9.  [SendMetrics] forwards every sample as it arrives, unchanged and one
    at a time: when it returns after the samples of [frames], channel store,
    registry and call record are those of the same [Broadcast] calls made
    directly, in the same order. *)
Theorem SendMetrics_forwards_each_sample frames err order rest s st :
  let '(st', _, _) :=
    SendMetrics (received frames ++ (Recv_err err, order) :: rest) s st in
  heap st' = heap (Broadcast_all frames st) ∧
  subscribers st' = subscribers (Broadcast_all frames st) ∧
  calls st' = calls (Broadcast_all frames st).
Proof.
  unfold SendMetrics.
  destruct (SendMetrics_loop_forwards frames ((Recv_err err, order) :: rest) s
              (s_log started_entry st) st) as (st1 & -> & Hh & Hs & Hc);
    [done..|].
  simpl. by destruct err.
Qed.

(** * Further properties of SubscribeMetrics *)

(** X10.  A new subscription never shares a mailbox: the channel that
    [SubscribeMetrics] makes is at an address the store did not hold, so every
    existing channel and every other entry of the registry is left as it was,
    and a registry that was free of shared channels stays so. *)
Theorem SubscribeMetrics_begin_fresh id st :
  registry_allocated st →
  let ch := (SubscribeMetrics_begin id st).1 in
  let st' := (SubscribeMetrics_begin id st).2 in
  heap st !! ch = None ∧
  (∀ a, a ≠ ch → heap st' !! a = heap st !! a) ∧
  (∀ j, j ≠ id → subscribers st' !! j = subscribers st !! j ∧
                 subscribers st' !! j ≠ Some ch) ∧
  registry_allocated st' ∧
  (no_alias st → no_alias st').
Proof.
  intros Halloc.
  destruct (SubscribeMetrics_begin_spec id st)
    as (a & st' & -> & Hnew & Hh & Hs & _). simpl.
  assert (∀ j, subscribers st !! j ≠ Some a) as Hunused.
  { intros j Hj. destruct (Halloc j a Hj) as [c Hc]. congruence. }
  split; [done|]. split; [|split; [|split]].
  - intros b Hb. rewrite Hh. by rewrite lookup_insert_ne.
  - intros j Hj. rewrite Hs, lookup_insert_ne by done. split; [done|]. apply Hunused.
  - intros t b. rewrite Hs, Hh, lookup_insert. case_decide.
    + intros [= <-]. rewrite lookup_insert_eq. eauto.
    + intros Hb. destruct (Halloc t b Hb) as [c Hc].
      rewrite lookup_insert_ne; [eauto|]. congruence.
  - intros Hinj i j b. rewrite Hs, !lookup_insert.
    repeat case_decide; subst; try done.
    + intros [= <-] Hj. by destruct (Hunused j).
    + intros Hi [= <-]. by destruct (Hunused i).
    + apply Hinj.
Qed.

Lemma SubscribeMetrics_begin_fresh_witness :
  let st := two_subscribers (Some Zap) in
  heap st !! (SubscribeMetrics_begin "new" st).1 = None ∧
  no_alias (SubscribeMetrics_begin "new" st).2.
Proof.
  intros st.
  pose proof (SubscribeMetrics_begin_fresh "new" st) as H.
  assert (registry_allocated st) as Halloc.
  { intros t a Ht. apply elem_of_map_to_list in Ht.
    assert (map_to_list (subscribers st) = [("slow", 0); ("fast", 1)]) as Hl
      by (vm_compute; reflexivity).
    rewrite Hl in Ht.
    apply elem_of_cons in Ht as [Heq|Ht].
    { injection Heq as -> ->. vm_compute. eauto. }
    apply elem_of_cons in Ht as [Heq|Ht].
    { injection Heq as -> ->. vm_compute. eauto. }
    apply elem_of_nil in Ht. destruct Ht. }
  specialize (H Halloc). cbv zeta in H.
  destruct H as (Hnew & _ & _ & _ & Hinj).
  split; [exact Hnew|]. apply Hinj.
  apply no_alias_NoDup, (bool_decide_unpack _). vm_compute. reflexivity.
Defined.

(** X11.  One iteration of a subscription loop, whichever way it goes,
    touches nothing that belongs to another subscriber: every other id keeps
    its entry in the registry and every other channel its content; the loop
    keeps its own id and channel. *)
Theorem SubscribeMetrics_iter_isolated r l st st' l' :
  SubscribeMetrics_iter r l st = Some (st', l') →
  (∀ t, t ≠ sub_id l → subscribers st' !! t = subscribers st !! t) ∧
  (∀ a, a ≠ sub_ch l → heap st' !! a = heap st !! a) ∧
  dom (heap st') = dom (heap st) ∧
  sub_id l' = sub_id l ∧ sub_ch l' = sub_ch l.
Proof.
  intros [Hiter _]%SubscribeMetrics_iter_inv.
  destruct Hiter as [n msg rest Hc Hh Hs Hcs ->
                    |err n msg rest Hc Hh Hs Hcs ->
                    |Hh Hs Hcs ->]; simpl; rewrite Hh, Hs.
  - repeat split; try done.
    + intros a Ha. by rewrite lookup_insert_ne.
    + apply dom_insert_lookup_L. eauto.
  - repeat split; try done.
    + intros t Ht. by rewrite lookup_delete_ne.
    + intros a Ha. by rewrite lookup_insert_ne.
    + apply dom_insert_lookup_L. eauto.
  - repeat split; try done.
    intros t Ht. by rewrite lookup_delete_ne.
Qed.

Lemma SubscribeMetrics_iter_isolated_witness :
  let st := two_subscribers (Some Zap) in
  let l := mkSubscription "slow" 0 [] Continue in
  ∃ st' l',
    SubscribeMetrics_iter (ReadyMsg (Some (transport_error "peer gone"))) l st
    = Some (st', l') ∧
    subscribers st' !! "fast" = Some 1 ∧ heap st' !! 1 = Some (mkChan 2 [sample 0]).
Proof.
  intros st l.
  destruct (SubscribeMetrics_iter (ReadyMsg (Some (transport_error "peer gone"))) l st)
    as [[st' l']|] eqn:Hiter; [|vm_compute in Hiter; discriminate Hiter].
  exists st', l'. split; [reflexivity|].
  destruct (SubscribeMetrics_iter_isolated _ l st st' l' Hiter)
    as (Hreg & Hheap & _).
  split.
  - rewrite (Hreg "fast"); [vm_compute; reflexivity|discriminate].
  - rewrite (Hheap 1); [vm_compute; reflexivity|discriminate].
Defined.

(** X12.  A sample whose send fails is lost to the subscriber: it has been
    taken out of the channel, it is not among the samples delivered, the
    failure is written at error level, and the samples behind it stay queued
    in the channel the loop leaves behind. *)
Theorem failed_send_consumes_sample err n msg rest l st :
  heap st !! sub_ch l = Some (mkChan n (msg :: rest)) →
  ∃ st' l',
    SubscribeMetrics_iter (ReadyMsg (Some err)) l st = Some (st', l') ∧
    heap st' !! sub_ch l = Some (mkChan n rest) ∧
    sub_sent l' = sub_sent l ∧
    send_failed_entry (sub_id l) err ∈ log st'.
Proof.
  intros Hc. unfold SubscribeMetrics_iter, try_recv. rewrite Hc.
  eexists _, _. split; [done|]. simpl.
  rewrite deferred_heap. simpl. rewrite lookup_insert_eq.
  split; [done|]. split; [done|].
  unfold SubscribeMetrics_deferred, Unregister. rewrite b_log_log. simpl.
  rewrite !elem_of_app, !list_elem_of_singleton. tauto.
Qed.

Lemma failed_send_consumes_sample_witness :
  let st := two_subscribers (Some Zap) in
  let l := mkSubscription "fast" 1 [] Continue in
  ∃ st' l',
    SubscribeMetrics_iter (ReadyMsg (Some (transport_error "peer gone"))) l st
    = Some (st', l') ∧
    heap st' !! 1 = Some (mkChan 2 []) ∧
    sub_sent l' = [] ∧
    send_failed_entry "fast" (transport_error "peer gone") ∈ log st'.
Proof.
  intros st l.
  apply (failed_send_consumes_sample (transport_error "peer gone") 2 (sample 0) [] l st).
  vm_compute. reflexivity.
Defined.

Lemma SubscribeMetrics_iter_sent n m ms l st :
  heap st !! sub_ch l = Some (mkChan n (m :: ms)) →
  SubscribeMetrics_iter (ReadyMsg None) l st
  = Some (s_log (sent_entry (sub_id l))
            (set_heap (<[sub_ch l := mkChan n ms]> (heap st)) st),
          mkSubscription (sub_id l) (sub_ch l) (sub_sent l ++ [m]) Continue).
Proof. intros Hc. unfold SubscribeMetrics_iter, try_recv. by rewrite Hc. Qed.

(** X13.  Draining is first-in first-out and complete: with [ms] waiting in
    its channel and every send succeeding, the loop sends exactly [ms], in
    that order, in as many iterations, stays registered, and leaves the channel
    empty, so that only cancellation can wake it next. *)
Theorem SubscribeMetrics_loop_drains n ms l st :
  heap st !! sub_ch l = Some (mkChan n ms) →
  ∃ st' l',
    SubscribeMetrics_loop (replicate (length ms) (ReadyMsg None)) l st
    = Some (st', l') ∧
    sub_sent l' = sub_sent l ++ ms ∧
    heap st' !! sub_ch l = Some (mkChan n []) ∧
    subscribers st' = subscribers st ∧
    sub_id l' = sub_id l ∧ sub_ch l' = sub_ch l ∧
    (∀ r, SubscribeMetrics_iter (ReadyMsg r) l' st' = None).
Proof.
  revert l st. induction ms as [|m ms IH]; intros l st Hc.
  - exists st, l. simpl. rewrite app_nil_r. repeat split; try done.
    intros r. unfold SubscribeMetrics_iter, try_recv. by rewrite Hc.
  - change (replicate (length (m :: ms)) (ReadyMsg None))
      with (ReadyMsg None :: replicate (length ms) (ReadyMsg None)).
    cbn [SubscribeMetrics_loop].
    rewrite (SubscribeMetrics_iter_sent n m ms l st Hc). cbn [sub_flow].
    destruct (IH (mkSubscription (sub_id l) (sub_ch l) (sub_sent l ++ [m]) Continue)
                (s_log (sent_entry (sub_id l))
                   (set_heap (<[sub_ch l := mkChan n ms]> (heap st)) st)))
      as (st' & l' & Hloop & Hsent & Hheap & Hsubs & Hid & Hch & Hidle).
    { simpl. apply lookup_insert_eq. }
    simpl in Hsent, Hheap, Hsubs, Hid, Hch.
    exists st', l'. rewrite Hloop, Hsent, <- app_assoc.
    split; [reflexivity|]. split; [reflexivity|]. split; [exact Hheap|].
    split; [exact Hsubs|]. split; [exact Hid|]. split; [exact Hch|exact Hidle].
Qed.

Lemma SubscribeMetrics_loop_drains_witness :
  let st := two_subscribers (Some Zap) in
  let l := mkSubscription "fast" 1 [] Continue in
  ∃ st' l',
    SubscribeMetrics_loop [ReadyMsg None] l st = Some (st', l') ∧
    sub_sent l' = [sample 0] ∧
    heap st' !! 1 = Some (mkChan 2 []).
Proof.
  intros st l.
  destruct (SubscribeMetrics_loop_drains 2 [sample 0] l st)
    as (st' & l' & Hloop & Hsent & Hheap & _).
  - vm_compute. reflexivity.
  - exists st', l'. split; [exact Hloop|]. split; [exact Hsent|exact Hheap].
Defined.

(** X14.  A subscriber whose connection is cancelled before any sample
    reached its channel: [SubscribeMetrics] returns nil without sending
    anything, after exactly one [Register] and one [Unregister] of its id,
    and leaves the registry without the id, so as it found it when the id was
    new.  The receive case cannot fire first, the channel being empty. *)
Theorem SubscribeMetrics_cancelled_at_once id rs st :
  (∃ st' l',
     SubscribeMetrics id (ReadyDone :: rs) st = Some (st', l') ∧
     sub_flow l' = Return None ∧
     sub_sent l' = [] ∧
     subscribers st' = delete id (subscribers st) ∧
     (subscribers st !! id = None → subscribers st' = subscribers st) ∧
     calls st' = calls st ++ [CallRegister id (sub_ch l'); CallUnregister id]) ∧
  (∀ r, SubscribeMetrics id (ReadyMsg r :: rs) st = None).
Proof.
  unfold SubscribeMetrics.
  destruct (SubscribeMetrics_begin_spec id st)
    as (a & st1 & -> & Hnew & Hh & Hs & _ & Hc).
  split.
  - simpl. eexists _, _. split; [done|]. simpl.
    rewrite deferred_subscribers, deferred_calls. simpl. rewrite Hs, Hc.
    repeat split; try done.
    + apply delete_insert_eq.
    + intros Habs. by rewrite delete_insert_eq, delete_id.
    + by rewrite <- app_assoc.
  - intros r. simpl. unfold SubscribeMetrics_iter, try_recv. simpl.
    by rewrite Hh, lookup_insert_eq.
Qed.

Lemma SubscribeMetrics_cancelled_at_once_witness :
  ∃ st' l',
    SubscribeMetrics "new" [ReadyDone] (two_subscribers (Some Zap)) = Some (st', l') ∧
    subscribers st' = subscribers (two_subscribers (Some Zap)).
Proof.
  destruct (SubscribeMetrics_cancelled_at_once "new" [] (two_subscribers (Some Zap)))
    as [(st' & l' & Hrun & _ & _ & _ & Hsame & _) _].
  exists st', l'. split; [exact Hrun|]. apply Hsame. vm_compute. reflexivity.
Defined.

(** * Further properties of the running server *)

Lemma reachable_logger lg sys : reachable lg sys → logger (shared sys) = Some lg.
Proof.
  induction 1 as [|sys ev sys' _ IH Hadm Hstep]; [done|].
  destruct ev as [id|k r| |r order s].
  - unfold sys_step in Hstep.
    destruct (SubscribeMetrics_begin_spec id (shared sys))
      as (a & st' & Heq & _ & _ & _ & Hl & _).
    rewrite Heq in Hstep. injection Hstep as <-. simpl. by rewrite Hl.
  - unfold sys_step in Hstep.
    destruct (loops sys !! k) as [l|]; [|done].
    destruct (sub_flow l); [|done].
    destruct (SubscribeMetrics_iter r l (shared sys)) as [[st1 l1]|] eqn:Hiter;
      [|done].
    injection Hstep as <-. simpl.
    apply SubscribeMetrics_iter_inv in Hiter as [_ Hl]. by rewrite Hl.
  - injection Hstep as <-. done.
  - injection Hstep as <-. destruct r as [req|[|reason]]; simpl; try done.
    by rewrite Broadcast_logger.
Qed.

(** X15.  In the running server (built by [NewMetricsServer], so with the
    server's logger) every drop is recorded.  For a streaming subscriber, a
    [Broadcast] appends the sample to its channel and writes no drop warning
    when fewer than 100 samples wait there, and otherwise leaves the channel
    as it is and writes exactly one drop warning for that subscriber. *)
Theorem running_server_broadcast lg sys k l order msg :
  reachable lg sys → loops sys !! k = Some l → sub_flow l = Continue →
  range_of (shared sys) order →
  let st' := Broadcast order msg (shared sys) in
  ∃ c, heap (shared sys) !! sub_ch l = Some c ∧
       length (buf c) ≤ 100 ∧
       (length (buf c) < 100 →
          heap st' !! sub_ch l = Some (mkChan 100 (buf c ++ [msg])) ∧
          drop_signals (sub_id l) (log st')
          = drop_signals (sub_id l) (log (shared sys))) ∧
       (length (buf c) = 100 →
          heap st' !! sub_ch l = Some c ∧
          drop_signals (sub_id l) (log st')
          = drop_signals (sub_id l) (log (shared sys)) + 1).
Proof.
  intros Hreach Hk Hflow Hp st'. subst st'.
  pose proof (reachable_logger _ _ Hreach) as Hlog.
  apply reachable_inv in Hreach.
  pose proof (sys_inv_no_alias _ Hreach) as Hinj.
  destruct (inv_mailbox _ Hreach k l Hk) as (c & Hc & Hcap & Hlen & _).
  pose proof (inv_loop _ Hreach k l Hk) as Hreg. rewrite Hflow in Hreg.
  destruct Hreg as [Hreg _]. unfold mailbox_capacity in Hcap.
  destruct (Broadcast_at order msg _ _ _ _ Hp Hinj Hreg Hc) as [Hheap Hdrop].
  rewrite Hlog in Hdrop.
  exists c. split; [done|]. split; [lia|]. rewrite Hheap, Hdrop. split.
  - intros Hroom. rewrite deliver_room by lia. rewrite Hcap. split; [done|].
    unfold try_send. case_decide; lia.
  - intros Hfull. rewrite deliver_full by lia. split; [done|].
    unfold try_send. case_decide; lia.
Qed.

Lemma running_server_broadcast_witness :
  let sys := after steady_life (mkSystem (NewMetricsServer Zap) []) in
  heap (Broadcast [("a", 0)] (sample 3) (shared sys)) !! 0
  = Some (mkChan 100 [sample 3]).
Proof.
  intros sys.
  destruct (running_server_broadcast Zap sys 0
              (mkSubscription "a" 0 [sample 1; sample 2] Continue)
              [("a", 0)] (sample 3))
    as (c & Hc & _ & Hroom & _).
  - apply steady_life_reachable.
  - vm_compute. reflexivity.
  - reflexivity.
  - unfold range_of. vm_compute. reflexivity.
  - assert (c = mkChan 100 []) as ->.
    { assert (heap (shared sys) !! 0 = Some (mkChan 100 [])) as Hc'
        by (vm_compute; reflexivity).
      simpl in Hc. rewrite Hc' in Hc. by injection Hc. }
    apply Hroom. simpl. lia.
Defined.

(** X16.  At every moment of the running server the registry holds exactly
    the subscription loops that are streaming, each id bound to the channel of
    its loop; no two ids share a channel and every registered channel
    exists. *)
Theorem registry_matches_streaming_loops lg sys :
  reachable lg sys →
  (∀ t a, subscribers (shared sys) !! t = Some a ↔
          ∃ k l, loops sys !! k = Some l ∧ sub_id l = t ∧ sub_ch l = a ∧
                 sub_flow l = Continue) ∧
  no_alias (shared sys) ∧
  registry_allocated (shared sys).
Proof.
  intros Hinv%reachable_inv.
  split; [|split].
  - intros t a. split; [apply Hinv|].
    intros (k & l & Hk & <- & <- & Hflow).
    pose proof (inv_loop _ Hinv k l Hk) as Hl. rewrite Hflow in Hl. apply Hl.
  - by apply sys_inv_no_alias.
  - intros t a Hta.
    destruct (inv_registry _ Hinv t a Hta) as (k & l & Hk & _ & <- & _).
    destruct (inv_mailbox _ Hinv k l Hk) as (c & Hc & _). eauto.
Qed.

Lemma registry_matches_streaming_loops_witness :
  let sys := after short_life (mkSystem (NewMetricsServer Zap) []) in
  no_alias (shared sys) ∧ subscribers (shared sys) !! "a" = None.
Proof.
  intros sys.
  destruct (registry_matches_streaming_loops Zap sys) as (_ & Hinj & _).
  - apply short_life_reachable.
  - split; [exact Hinj|]. vm_compute. reflexivity.
Defined.

(** * pkg/cli *)

(** X17.  The closure returned by [RegisterRelayFlags]: [--version] wins over
    everything, address check included, and exits with status 0 after
    printing the version and a newline; a configuration is returned only when
    [--version] is not set, and its address is the parsed flag and never
    empty; and because the flag has the default [localhost:50051], the fatal
    "missing required flag" is reached only when the command line gives the
    flag an empty value, never when it leaves the flag out. *)
Theorem RegisterRelayFlags_outcomes Version cl :
  (arg_version cl = true →
     RegisterRelayFlags Version cl
     = Exit 0 (Version +:+ String (Ascii.ascii_of_nat 10) "")) ∧
  (∀ cfg, RegisterRelayFlags Version cl = Config cfg →
     arg_version cl = false ∧
     RelayAddress cfg ≠ "" ∧
     RelayAddress cfg = default "localhost:50051" (arg_relay_address cl)) ∧
  (∀ msg, RegisterRelayFlags Version cl = Fatal msg →
     arg_version cl = false ∧ arg_relay_address cl = Some "" ∧
     msg = "missing required flag: --relay-address") ∧
  (arg_version cl = false → arg_relay_address cl = None →
     RegisterRelayFlags Version cl = Config (mkRelayConfig "localhost:50051")).
Proof.
  destruct cl as [[addr|] [|]]; unfold RegisterRelayFlags, flag_String; simpl.
  - split; [done|]. split; [done|]. split; done.
  - case_decide as Haddr.
    + subst addr. split; [done|]. split; [done|]. split; [|done].
      intros m [= <-]. done.
    + split; [done|]. split; [|split; done].
      intros cfg [= <-]. done.
  - split; [done|]. split; [done|]. split; done.
  - split; [done|]. split; [|split; done].
    intros cfg [= <-]. done.
Qed.

Lemma RegisterRelayFlags_outcomes_witness :
  RegisterRelayFlags "v1.2.3" (mkCommandLine (Some "") true)
  = Exit 0 ("v1.2.3" +:+ String (Ascii.ascii_of_nat 10) "") ∧
  RegisterRelayFlags "v1.2.3" (mkCommandLine None false)
  = Config (mkRelayConfig "localhost:50051").
Proof.
  split.
  - apply (RegisterRelayFlags_outcomes "v1.2.3" (mkCommandLine (Some "") true)).
    reflexivity.
  - apply (RegisterRelayFlags_outcomes "v1.2.3" (mkCommandLine None false));
      reflexivity.
Defined.
